(** * Page validation processor: [lib/validation/processor.js]

    A shallow embedding of the exported validation function and of its two
    inner functions, [reduceGroupedErrors] and [gatherErrors], followed by
    the properties of the error aggregation.

    JavaScript values are an inductive type, the objects created by the
    processor live in an explicit store, exceptions are a completion of a
    small state monad, and promises are modelled by their settled state. *)

From Stdlib Require Import List String Ascii Bool Arith ZArith NArith Lia.
From Stdlib Require Import Permutation Sorted DecimalString.
Import ListNotations.

Local Open Scope string_scope.
Local Open Scope list_scope.

Set Warnings "-register-all".

(* ================================================================== *)
(** ** JavaScript values handed in by collaborators *)

(** The settled value of a unit and the records inside it are plain data:
    the processor reads them and never writes to them.  [VObj] lists the
    own properties of a plain object (prototype [Object.prototype]), the
    first binding of a name being the property; [VArr] is an array without
    holes.  [VNum] covers the integers below 10^21 in magnitude, which print
    in plain decimal.  Symbols, functions and arrays with holes are not
    represented. *)
Inductive value : Type :=
| VUndefined
| VNull
| VBool (b : bool)
| VNum (z : Z)
| VStr (s : string)
| VObj (own : list (string * value))
| VArr (elems : list value).

Inductive error : Type := TypeError.

Fixpoint assoc {A : Type} (k : string) (l : list (string * A)) : option A :=
  match l with
  | [] => None
  | (k', a) :: r => if String.eqb k' k then Some a else assoc k r
  end.

(** [v[name]] for a name that no built-in prototype defines (such as
    [field]): reading a property of [undefined] or [null] throws, a
    primitive or an array has no such property, an object answers with its
    own property or [undefined]. *)
Definition GetV (v : value) (name : string) : option value :=
  match v with
  | VUndefined | VNull => None
  | VObj own =>
      match assoc name own with
      | Some x => Some x
      | None => Some VUndefined
      end
  | _ => Some VUndefined
  end.

Definition Array_isArray (v : value) : bool :=
  match v with
  | VArr _ => true
  | _ => false
  end.

Definition string_of_Z (z : Z) : string := NilZero.string_of_int (Z.to_int z).

(** [ToString], which is what [ToPropertyKey] does to a value that is not a
    symbol.  A plain object goes through [toString] then [valueOf]: with
    the inherited [toString] it prints as [[object Object]]; an own
    [toString] property shadows it, and since no value of this type is
    callable the conversion then ends in a TypeError ([None]).  An array
    joins its elements with commas, [undefined] and [null] printing as the
    empty string. *)
Fixpoint ToString (v : value) : option string :=
  match v with
  | VUndefined => Some "undefined"
  | VNull => Some "null"
  | VBool true => Some "true"
  | VBool false => Some "false"
  | VNum z => Some (string_of_Z z)
  | VStr s => Some s
  | VObj own =>
      match assoc "toString" own with
      | Some _ => None
      | None => Some "[object Object]"
      end
  | VArr elems =>
      let element (x : value) : option string :=
        match x with
        | VUndefined | VNull => Some ""
        | _ => ToString x
        end in
      (fix join (l : list value) : option string :=
         match l with
         | [] => Some ""
         | [x] => element x
         | x :: r =>
             match element x, join r with
             | Some a, Some b => Some (a ++ "," ++ b)%string
             | _, _ => None
             end
         end) elems
  end.

Definition ToPropertyKey (v : value) : option string := ToString v.

(** The property key of [grouped[e.field]]; [None] when evaluating the
    expression throws. *)
Definition record_key (e : value) : option string :=
  match GetV e "field" with
  | Some f => ToPropertyKey f
  | None => None
  end.

(* ================================================================== *)
(** ** Enumeration order of own property keys *)

Definition string_of_N (n : N) : string := NilZero.string_of_uint (N.to_uint n).

(** An array index is the canonical decimal form of an integer between 0
    and 2^32 - 2. *)
Definition array_index (s : string) : option N :=
  match NilZero.uint_of_string s with
  | Some u =>
      let n := N.of_uint u in
      if (String.eqb (string_of_N n) s && (n <=? 4294967294)%N)%bool
      then Some n else None
  | None => None
  end.

Definition is_array_index (s : string) : bool :=
  match array_index s with
  | Some _ => true
  | None => false
  end.

Fixpoint filter_map {A B : Type} (f : A -> option B) (l : list A) : list B :=
  match l with
  | [] => []
  | x :: r =>
      match f x with
      | Some y => y :: filter_map f r
      | None => filter_map f r
      end
  end.

Fixpoint insert_sorted (n : N) (l : list N) : list N :=
  match l with
  | [] => [n]
  | m :: r => if (n <=? m)%N then n :: l else m :: insert_sorted n r
  end.

Definition sort_indices (l : list N) : list N := fold_right insert_sorted [] l.

(** [OrdinaryOwnPropertyKeys] on the string keys of an object, given in the
    order the properties were created: array indices first, in ascending
    numeric order, then the other keys in creation order. *)
Definition OrdinaryOwnPropertyKeys (created : list string) : list string :=
  map string_of_N (sort_indices (filter_map array_index created))
  ++ filter (fun k => negb (is_array_index k)) created.

(* ================================================================== *)
(** ** The store of objects the processor creates *)

Definition loc : Type := nat.

(** What a property of a stored object holds: an array of records, owned by
    that property alone (the processor keeps no other reference to it), or a
    built-in method, as [Object.prototype] has them. *)
Inductive slot : Type :=
| SArr (elems : list value)
| SBuiltin (name : string).

Record object : Type := mkObject {
  proto : option loc;
  props : list (string * slot)
}.

Definition heap : Type := list object.

Definition enumerable (s : slot) : bool :=
  match s with
  | SArr _ => true
  | SBuiltin _ => false
  end.

Fixpoint update_nth {A : Type} (n : nat) (f : A -> A) (l : list A) : list A :=
  match l, n with
  | [], _ => []
  | x :: r, O => f x :: r
  | x :: r, S n' => x :: update_nth n' f r
  end.

Fixpoint replace_prop (k : string) (s : slot) (l : list (string * slot))
  : list (string * slot) :=
  match l with
  | [] => []
  | (k', s') :: r =>
      if String.eqb k' k then (k', s) :: r else (k', s') :: replace_prop k s r
  end.

(** Writing a data property of an object: an own property keeps its place,
    a new one is created last. *)
Definition write_prop (k : string) (s : slot) (l : list (string * slot))
  : list (string * slot) :=
  match assoc k l with
  | Some _ => replace_prop k s l
  | None => l ++ [(k, s)]
  end.

(** Property lookup along the prototype chain: the object that holds the
    property, and what it holds.  The chain of a store of [n] objects has at
    most [n] links. *)
Fixpoint find_prop (fuel : nat) (h : heap) (l : loc) (k : string)
  : option (loc * slot) :=
  match fuel with
  | O => None
  | S fuel' =>
      match nth_error h l with
      | None => None
      | Some o =>
          match assoc k (props o) with
          | Some s => Some (l, s)
          | None =>
              match proto o with
              | Some p => find_prop fuel' h p k
              | None => None
              end
          end
      end
  end.

(* ================================================================== *)
(** ** Computations: a store, and a completion that is normal or a throw *)

Inductive completion (A : Type) : Type :=
| Normal (a : A)
| Throw (e : error).
Arguments Normal {A} a.
Arguments Throw {A} e.

Definition M (A : Type) : Type := heap -> completion A * heap.

Definition ret {A : Type} (a : A) : M A := fun h => (Normal a, h).

Definition throw {A : Type} (e : error) : M A := fun h => (Throw e, h).

Definition bind {A B : Type} (m : M A) (f : A -> M B) : M B :=
  fun h =>
    match m h with
    | (Normal a, h') => f a h'
    | (Throw e, h') => (Throw e, h')
    end.

Declare Scope js_scope.
Delimit Scope js_scope with js.
Notation "x <- c1 ;; c2" := (bind c1 (fun x => c2))
  (at level 100, c1 at next level, right associativity) : js_scope.
Notation "c1 ;; c2" := (bind c1 (fun _ => c2))
  (at level 100, right associativity) : js_scope.
Local Open Scope js_scope.

(** A pure evaluation that throws a TypeError when it has no result. *)
Definition eval {A : Type} (o : option A) : M A :=
  match o with
  | Some a => ret a
  | None => throw TypeError
  end.

(** [l.forEach(f)] *)
Fixpoint forEach {A : Type} (l : list A) (f : A -> M unit) : M unit :=
  match l with
  | [] => ret tt
  | x :: r => f x ;; forEach r f
  end.

(** [Object.create(p)] with [p] an object or [null] *)
Definition Object_create (p : option loc) : M loc :=
  fun h => (Normal (List.length h), h ++ [mkObject p []]).

(** [o[k]] on a stored object; [None] is [undefined]. *)
Definition Get (o : loc) (k : string) : M (option slot) :=
  fun h => (Normal (option_map snd (find_prop (S (List.length h)) h o k)), h).

(** [o[k] = s] for a stored object [o] (the properties the processor
    assigns are never shadowed by an accessor or a read-only property). *)
Definition Set_ (o : loc) (k : string) (s : slot) : M unit :=
  fun h =>
    (Normal tt,
     update_nth o (fun ob => mkObject (proto ob) (write_prop k s (props ob))) h).

(** [o[k].push(e)]: the array that the lookup finds is extended in place,
    in the object that holds it. *)
Definition push (o : loc) (k : string) (e : value) : M unit :=
  fun h =>
    match find_prop (S (List.length h)) h o k with
    | Some (holder, SArr elems) =>
        (Normal tt,
         update_nth holder
           (fun ob => mkObject (proto ob)
                        (replace_prop k (SArr (elems ++ [e])) (props ob))) h)
    | Some (_, SBuiltin _) => (Throw TypeError, h)
    | None => (Throw TypeError, h)
    end.

(** [o[k][0]] *)
Definition first_element (s : option slot) : option value :=
  match s with
  | Some (SArr elems) => Some (nth 0 elems VUndefined)
  | Some (SBuiltin _) => Some VUndefined
  | None => None
  end.

(** [Object.keys(o)]: the own enumerable string keys. *)
Definition Object_keys (o : loc) : M (list string) :=
  fun h =>
    match nth_error h o with
    | Some ob =>
        (Normal
           (OrdinaryOwnPropertyKeys
              (map fst (filter (fun p => enumerable (snd p)) (props ob)))), h)
    | None => (Throw TypeError, h)
    end.

(** Truthiness of a looked-up property: arrays and functions are truthy,
    [undefined] is not. *)
Definition truthy (s : option slot) : bool :=
  match s with
  | Some _ => true
  | None => false
  end.

(* ================================================================== *)
(** ** Promises, by their settled state *)

(** A promise is given by how it settled; one that never settles is not
    represented. *)

Inductive reason : Type :=
| RObject (l : loc)
| RError (e : error)
| RValue (v : value).

Inductive promise : Type :=
| Fulfilled (v : value)
| Rejected (r : reason).

Definition Promise_resolve : promise := Fulfilled VUndefined.

Definition Promise_reject (l : loc) : promise := Rejected (RObject l).

(** [Promise.all] over promises that are settled when it is called: the
    values in order, or the first rejection in iteration order, which for
    such promises is the first one to be reported. *)
Fixpoint Promise_all (q : list promise) : list value + reason :=
  match q with
  | [] => inl []
  | Fulfilled v :: r =>
      match Promise_all r with
      | inl vs => inl (v :: vs)
      | inr x => inr x
      end
  | Rejected x :: _ => inr x
  end.

(** [p.then(f)] for a handler [f] that returns a promise: a rejection passes
    through, a throw of the handler becomes a rejection. *)
Definition then_ (p : list value + reason) (f : list value -> M promise)
  : heap -> promise * heap :=
  fun h =>
    match p with
    | inl vs =>
        match f vs h with
        | (Normal p', h') => (p', h')
        | (Throw e, h') => (Rejected (RError e), h')
        end
    | inr x => (Rejected x, h)
    end.

(* ================================================================== *)
(** ** The processor *)

(** [reduceGroupedErrors(errors)], lines 40-46 *)
Definition reduceGroupedErrors (errors : loc) : M loc :=
  reduced <- Object_create None ;;
  keys <- Object_keys errors ;;
  forEach keys (fun field =>
    s <- Get errors field ;;
    x <- eval (first_element s) ;;
    Set_ reduced field (SArr [x])) ;;
  ret reduced.

(** The body of the inner [forEach] of [gatherErrors], lines 61-64 *)
Definition group_record (grouped : loc) (e : value) : M unit :=
  k <- eval (record_key e) ;;
  s <- Get grouped k ;;
  (if negb (truthy s)
   then (k <- eval (record_key e) ;; Set_ grouped k (SArr []))
   else ret tt) ;;
  k <- eval (record_key e) ;;
  push grouped k e.

(** Lines 57-71 of [gatherErrors]: the object that [grouped] names before
    the final test. *)
Definition groupErrors (reduceErrors : bool) (errorsList : list value) : M loc :=
  grouped <- Object_create None ;;
  forEach errorsList (fun errors =>
    if Array_isArray errors
    then
      match errors with
      | VArr elems => forEach elems (group_record grouped)
      | _ => ret tt
      end
    else ret tt) ;;
  if reduceErrors then reduceGroupedErrors grouped else ret grouped.

(** [gatherErrors(errorsList)], lines 56-76 *)
Definition gatherErrors (reduceErrors : bool) (errorsList : list value)
  : M promise :=
  grouped <- groupErrors reduceErrors errorsList ;;
  keys <- Object_keys grouped ;;
  ret (if Nat.eqb (List.length keys) 0
       then Promise_resolve
       else Promise_reject grouped).

Section Processor.

(** Validator specifications are opaque, and [queueValidator] comes from
    [./processor/queue.js]: it is handed the queue and returns it with
    whatever it pushed. *)
Variable validator : Type.
Variable queueValidator :
  list promise -> value -> value -> string -> option validator -> list promise.

(** The parameters object; [None] is an omitted (undefined) option.
    [fieldValidators] lists the own enumerable properties of the object in
    creation order, each name once. *)
Record params : Type := mkParams {
  waypointId : value;
  fieldValidators : option (list (string * validator));
  journeyContext : option value;
  reduceErrors : option bool
}.

Definition default {A : Type} (o : option A) (d : A) : A :=
  match o with
  | Some a => a
  | None => d
  end.

Definition no_params : params := mkParams VUndefined None None None.

(** A default parameter value stands in for an omitted argument and for an
    explicit [undefined] alike. *)
Definition default_value (o : option value) (d : value) : value :=
  match o with
  | None | Some VUndefined => d
  | Some v => v
  end.

(** Lines 27-30: the queue after the loop over [Object.keys(fieldValidators)] *)
Definition validatorQueue (p : option params) : list promise :=
  let p := default p no_params in
  let fv := default (fieldValidators p) [] in
  let ctx := default_value (journeyContext p) (VObj []) in
  fold_left
    (fun queue field =>
       queueValidator queue (waypointId p) ctx field (assoc field fv))
    (OrdinaryOwnPropertyKeys (map fst fv)) [].

(** The exported function, lines 23-83 *)
Definition processor (p : option params) : heap -> promise * heap :=
  let flag := default (reduceErrors (default p no_params)) false in
  let queue := validatorQueue p in
  if negb (Nat.eqb (List.length queue) 0)
  then then_ (Promise_all queue) (gatherErrors flag)
  else fun h => (Promise_resolve, h).

End Processor.

Arguments mkParams {validator}.
Arguments waypointId {validator}.
Arguments fieldValidators {validator}.
Arguments journeyContext {validator}.
Arguments reduceErrors {validator}.
Arguments no_params {validator}.
Arguments validatorQueue {validator}.
Arguments processor {validator}.

(* ================================================================== *)
(** ** A list-level account of the grouping *)

(** The grouped object as data: the field keys in creation order, each with
    the records pushed under it. *)
Definition groups : Type := list (string * list value).

(** The properties of the stored object that a grouping stands for. *)
Definition as_props (g : groups) : list (string * slot) :=
  map (fun p => (fst p, SArr (snd p))) g.

(** The list under key [k] replaced, the key keeping its place. *)
Fixpoint set_group (k : string) (es : list value) (g : groups) : groups :=
  match g with
  | [] => []
  | (k', es') :: r =>
      if String.eqb k' k then (k', es) :: r else (k', es') :: set_group k es r
  end.

(** One record pushed under its key, the key being created last when new. *)
Definition add_record (k : string) (e : value) (g : groups) : groups :=
  match assoc k g with
  | Some es => set_group k (es ++ [e]) g
  | None => g ++ [(k, [e])]
  end.

(** Grouping a run of records, stopping at the first one whose key cannot
    be evaluated. *)
Fixpoint group_records (g : groups) (es : list value)
  : completion unit * groups :=
  match es with
  | [] => (Normal tt, g)
  | e :: r =>
      match record_key e with
      | Some k => group_records (add_record k e g) r
      | None => (Throw TypeError, g)
      end
  end.

(** The records of all the unit results that are arrays, in dispatch order. *)
Definition all_records (errorsList : list value) : list value :=
  flat_map (fun errors => match errors with VArr elems => elems | _ => [] end)
           errorsList.

(** The keys under which the records are grouped, one per record. *)
Definition fields_of (errorsList : list value) : list string :=
  filter_map record_key (all_records errorsList).

(** The key of the record can be evaluated: [e.field] does not throw. *)
Definition groupable (e : value) : Prop := record_key e <> None.

(** Keys in the order of their first occurrence. *)
Fixpoint first_seen (ks : list string) : list string :=
  match ks with
  | [] => []
  | k :: r => k :: filter (fun k' => negb (String.eqb k' k)) (first_seen r)
  end.

(** The record is grouped under key [k]. *)
Definition key_is (k : string) (e : value) : bool :=
  match record_key e with
  | Some k' => String.eqb k' k
  | None => false
  end.

(** The records produced for field [k], in dispatch order. *)
Definition records_for (k : string) (errorsList : list value) : list value :=
  filter (key_is k) (all_records errorsList).

(** What [reduceGroupedErrors] builds, as data. *)
Definition reduce_groups (g : groups) : groups :=
  map (fun k => (k, [nth 0 (match assoc k g with Some es => es | None => [] end)
                        VUndefined]))
      (OrdinaryOwnPropertyKeys (map fst g)).

(** An Error Record of the data model: an object whose [field] is a string. *)
Definition ErrorRecord (e : value) : Prop :=
  exists own s, e = VObj own /\ assoc "field" own = Some (VStr s).

(** The object a location names, and the keys [Object.keys] lists for it. *)
Definition object_at (h : heap) (l : loc) : option object := nth_error h l.

Definition keys_at (h : heap) (l : loc) : list string :=
  match Object_keys l h with
  | (Normal ks, _) => ks
  | (Throw _, _) => []
  end.

(** The own property [k] of the object at [l]. *)
Definition own_at (h : heap) (l : loc) (k : string) : option slot :=
  match object_at h l with
  | Some o => assoc k (props o)
  | None => None
  end.

(** Success or failure of a settled promise. *)
Definition is_fulfilled (p : promise) : bool :=
  match p with
  | Fulfilled _ => true
  | Rejected _ => false
  end.

(* ================================================================== *)
(** ** Auxiliary definitions for the statements *)

(** Indices in ascending order. *)
Inductive ascending : list N -> Prop :=
| ascending_nil : ascending []
| ascending_one n : ascending [n]
| ascending_cons n m l :
    (n <= m)%N -> ascending (m :: l) -> ascending (n :: m :: l).

(** The entry that the reduction writes for key [k]. *)
Definition group_head (g : groups) (k : string) : string * list value :=
  (k, [nth 0 (match assoc k g with Some es => es | None => [] end) VUndefined]).

(** [groupable], as a test. *)
Definition has_key (e : value) : bool :=
  match record_key e with
  | Some _ => true
  | None => false
  end.

(** The grouping has no entry for [k]. *)
Definition absent (g : groups) (k : string) : bool :=
  match assoc k g with
  | Some _ => false
  | None => true
  end.

(** The grouping of all the records, up to the first throw if there is one. *)
Definition grouping (errorsList : list value) : groups :=
  snd (group_records [] (all_records errorsList)).

(** The mapping that [grouped] names at the end: reduced when the flag is set. *)
Definition final_groups (flag : bool) (errorsList : list value) : groups :=
  if flag then reduce_groups (grouping errorsList) else grouping errorsList.

(** The objects a call creates: [grouped], then [reduced] when asked for. *)
Definition created (flag : bool) (errorsList : list value) : heap :=
  mkObject None (as_props (grouping errorsList))
  :: (if flag
      then [mkObject None (as_props (reduce_groups (grouping errorsList)))]
      else []).

(** Where that mapping is stored, in a store that was [h] before the call. *)
Definition final_loc (flag : bool) (h : heap) : loc :=
  if flag then S (List.length h) else List.length h.

(** The options of an invocation, defaults applied. *)
Definition flag_of {validator : Type} (p : option (params validator)) : bool :=
  default (reduceErrors (default p no_params)) false.

Definition fieldValidators_of {validator : Type} (p : option (params validator))
  : list (string * validator) :=
  default (fieldValidators (default p no_params)) [].

(** Whether a queue of settled units leads to success: every unit is
    fulfilled, and none with an array that holds an element. *)
Definition quiet (u : promise) : bool :=
  match u with
  | Fulfilled (VArr (_ :: _)) => false
  | Fulfilled _ => true
  | Rejected _ => false
  end.

(** A stand-in for the collaborator, for evaluating the processor on
    concrete inputs: a validator is the value its unit settles with. *)
Definition settled_unit (queue : list promise) (waypoint context : value)
           (field : string) (v : option value) : list promise :=
  queue ++ [Fulfilled (default v VUndefined)].

(** The methods of [Object.prototype], for stores that hold it. *)
Definition Object_prototype : object :=
  mkObject None
    (map (fun name => (name, SBuiltin name))
       ["constructor"; "__defineGetter__"; "__defineSetter__";
        "hasOwnProperty"; "__lookupGetter__"; "__lookupSetter__";
        "isPrototypeOf"; "propertyIsEnumerable"; "toString"; "valueOf";
        "toLocaleString"]).



Definition field_of (e : value) (k : string) : Prop :=
  GetV e "field" = Some (VStr k).


(** An object without a [field] property. *)
Definition fieldless (e : value) : Prop :=
  exists own, e = VObj own /\ assoc "field" own = None.

(** Sample records and invocations. *)
Definition record (field type : string) : value :=
  VObj [("field", VStr field); ("type", VStr type)].

Definition page (fv : list (string * value)) (reduce : option bool)
  : option (params value) :=
  Some (mkParams (VStr "page") (Some fv) None reduce).

(** A second stand-in for the collaborator: a validator is the settled
    unit itself, fulfilled or rejected. *)
Definition queued_unit (queue : list promise) (waypoint context : value)
           (field : string) (u : option promise) : list promise :=
  queue ++ [default u (Fulfilled VUndefined)].

(** The number of records a grouping holds, and the number an object
    holds in its arrays. *)
Definition records_total (g : groups) : nat :=
  list_sum (map (fun p => List.length (snd p)) g).

Definition mapping_size (ob : object) : nat :=
  list_sum (map (fun p => match snd p with
                          | SArr elems => List.length elems
                          | SBuiltin _ => 0
                          end) (props ob)).

(** A completion whose rejection payload is named relative to the end of a
    store of [n] objects. *)
Definition relocate (n : nat) (c : completion promise) : completion promise :=
  match c with
  | Normal (Rejected (RObject l)) => Normal (Rejected (RObject (n + l)))
  | _ => c
  end.

(** The order of two keys in an enumeration: array indices by value, and
    before every other key. *)
Definition key_le (a b : string) : Prop :=
  match array_index a, array_index b with
  | Some n, Some m => (n <= m)%N
  | Some _, None => True
  | None, Some _ => False
  | None, None => True
  end.

(** The unit of [field] reports nothing, or Error Records of that field. *)
Definition reports_own_field (field : string) (r : value) : Prop :=
  Array_isArray r = false \/
  exists es, r = VArr es /\ Forall (fun e => field_of e field) es.

(** Every record of a concrete list of unit results has a key. *)
Ltac keyed :=
  repeat constructor; unfold groupable; vm_compute; discriminate.

(* ================================================================== *)
(** ** Lists and association lists *)

Lemma nth_error_last {A : Type} (h : list A) (o : A) :
  nth_error (h ++ [o]) (List.length h) = Some o.
Proof.
  induction h as [|x h IH]; simpl; auto.
Qed.

Lemma update_nth_last {A : Type} (f : A -> A) (h : list A) (o : A) :
  update_nth (List.length h) f (h ++ [o]) = h ++ [f o].
Proof.
  induction h as [|x h IH]; simpl; [reflexivity | now rewrite IH].
Qed.

Lemma assoc_app {A : Type} (k : string) (l1 l2 : list (string * A)) :
  assoc k (l1 ++ l2) =
  match assoc k l1 with
  | Some a => Some a
  | None => assoc k l2
  end.
Proof.
  induction l1 as [|[k' a] l1 IH]; simpl; auto.
  destruct (String.eqb k' k); auto.
Qed.

Lemma assoc_as_props (k : string) (g : groups) :
  assoc k (as_props g) = option_map SArr (assoc k g).
Proof.
  induction g as [|[k' es] g IH]; simpl; auto.
  destruct (String.eqb k' k); auto.
Qed.

Lemma as_props_app (g1 g2 : groups) :
  as_props (g1 ++ g2) = as_props g1 ++ as_props g2.
Proof.
  apply map_app.
Qed.

Lemma replace_prop_as_props (k : string) (es : list value) (g : groups) :
  replace_prop k (SArr es) (as_props g) = as_props (set_group k es g).
Proof.
  induction g as [|[k' es'] g IH]; simpl; auto.
  destruct (String.eqb k' k); simpl; [reflexivity | now rewrite IH].
Qed.

Lemma set_group_app_absent (k : string) (es : list value) (g1 g2 : groups) :
  assoc k g1 = None ->
  set_group k es (g1 ++ g2) = g1 ++ set_group k es g2.
Proof.
  induction g1 as [|[k' es'] g1 IH]; simpl; auto.
  destruct (String.eqb k' k); [discriminate|].
  intros H. now rewrite IH.
Qed.

Lemma assoc_In_fst {A : Type} (k : string) (l : list (string * A)) :
  assoc k l <> None <-> In k (map fst l).
Proof.
  induction l as [|[k' a] l IH]; simpl.
  - split; [congruence | tauto].
  - destruct (String.eqb_spec k' k) as [->|Hne].
    + split; [auto | congruence].
    + rewrite IH. split; [auto | intros [H|H]; [contradiction | exact H]].
Qed.

Lemma assoc_None_not_In {A : Type} (k : string) (l : list (string * A)) :
  assoc k l = None <-> ~ In k (map fst l).
Proof.
  rewrite <- assoc_In_fst. destruct (assoc k l); split; try congruence.
  intros H. exfalso. apply H. discriminate.
Qed.

(* ================================================================== *)
(** ** Running the grouping in the store *)

(** A lookup in the object created last, when it has no prototype. *)
Lemma find_prop_last (h : heap) (g : list (string * slot)) (k : string) (n : nat) :
  find_prop (S n) (h ++ [mkObject None g]) (List.length h) k =
  option_map (pair (List.length h)) (assoc k g).
Proof.
  simpl. rewrite nth_error_last. simpl. destruct (assoc k g); reflexivity.
Qed.

Lemma group_record_run (h : heap) (g : groups) (e : value) :
  group_record (List.length h) e (h ++ [mkObject None (as_props g)]) =
  match record_key e with
  | Some k => (Normal tt, h ++ [mkObject None (as_props (add_record k e g))])
  | None => (Throw TypeError, h ++ [mkObject None (as_props g)])
  end.
Proof.
  unfold group_record. destruct (record_key e) as [k|] eqn:Hk; [|reflexivity].
  unfold bind at 1. simpl eval. unfold ret at 1.
  unfold bind at 1. unfold Get at 1.
  rewrite find_prop_last, assoc_as_props.
  unfold add_record.
  destruct (assoc k g) as [es|] eqn:Ha; simpl option_map; simpl truthy; simpl negb.
  - unfold bind, ret, push.
    rewrite find_prop_last, assoc_as_props, Ha. simpl option_map.
    cbv beta iota. rewrite update_nth_last. simpl. now rewrite replace_prop_as_props.
  - unfold bind, ret, Set_, push.
    rewrite update_nth_last. simpl proto. simpl props.
    unfold write_prop. rewrite assoc_as_props, Ha. simpl option_map.
    change [(k, SArr [])] with (as_props [(k, [])]).
    rewrite <- as_props_app.
    rewrite find_prop_last, assoc_as_props, assoc_app, Ha. simpl assoc.
    rewrite String.eqb_refl. simpl option_map. cbv beta iota.
    rewrite update_nth_last. simpl proto. simpl props.
    rewrite replace_prop_as_props, set_group_app_absent by exact Ha.
    simpl. now rewrite String.eqb_refl.
Qed.

Lemma forEach_group_record (es : list value) (h : heap) (g : groups) :
  forEach es (group_record (List.length h)) (h ++ [mkObject None (as_props g)]) =
  (fst (group_records g es),
   h ++ [mkObject None (as_props (snd (group_records g es)))]).
Proof.
  revert g. induction es as [|e es IH]; intros g; simpl; [reflexivity|].
  unfold bind. rewrite group_record_run.
  destruct (record_key e) as [k|]; [apply IH | reflexivity].
Qed.

Lemma group_records_app (g : groups) (a b : list value) :
  group_records g (a ++ b) =
  match group_records g a with
  | (Normal _, g') => group_records g' b
  | (Throw e, g') => (Throw e, g')
  end.
Proof.
  revert g. induction a as [|e a IH]; intros g; simpl; [reflexivity|].
  destruct (record_key e); [apply IH | reflexivity].
Qed.

Lemma forEach_results (rs : list value) (h : heap) (g : groups) :
  forEach rs
    (fun errors =>
       if Array_isArray errors
       then match errors with
            | VArr elems => forEach elems (group_record (List.length h))
            | _ => ret tt
            end
       else ret tt)
    (h ++ [mkObject None (as_props g)]) =
  (fst (group_records g (all_records rs)),
   h ++ [mkObject None (as_props (snd (group_records g (all_records rs))))]).
Proof.
  revert g. induction rs as [|r rs IH]; intros g; [reflexivity|].
  cbn [forEach all_records flat_map]. fold (all_records rs).
  unfold bind.
  destruct r; cbn [Array_isArray]; unfold ret; try (rewrite IH; reflexivity).
  rewrite forEach_group_record, group_records_app.
  destruct (group_records g elems) as [[[]|err] g']; cbn [fst snd].
  - apply IH.
  - reflexivity.
Qed.

(* ================================================================== *)
(** ** The enumeration order *)

Lemma array_index_sound (s : string) (n : N) :
  array_index s = Some n -> string_of_N n = s.
Proof.
  unfold array_index. destruct (NilZero.uint_of_string s) as [u|]; [|discriminate].
  cbv zeta.
  destruct (String.eqb_spec (string_of_N (N.of_uint u)) s) as [E|]; simpl;
    [|discriminate].
  destruct (N.of_uint u <=? 4294967294)%N; [|discriminate].
  intros H. injection H as <-. exact E.
Qed.

Lemma array_index_canonical (s : string) (n : N) :
  array_index s = Some n -> array_index (string_of_N n) = Some n.
Proof.
  intros H. now rewrite (array_index_sound _ _ H).
Qed.

Lemma indices_as_keys (ks : list string) :
  map string_of_N (filter_map array_index ks) = filter is_array_index ks.
Proof.
  induction ks as [|k ks IH]; simpl; auto.
  unfold is_array_index. destruct (array_index k) as [n|] eqn:E; simpl; auto.
  now rewrite (array_index_sound _ _ E), IH.
Qed.

Lemma filter_map_Forall {A B : Type} (f : A -> option B) (l : list A) :
  Forall (fun y => exists x, f x = Some y) (filter_map f l).
Proof.
  induction l as [|x l IH]; simpl; [constructor|].
  destruct (f x) as [y|] eqn:E; auto. constructor; eauto.
Qed.

Lemma filter_map_none {A B : Type} (f : A -> option B) (l : list A) :
  Forall (fun x => f x = None) l -> filter_map f l = [].
Proof.
  induction 1 as [|x l Hx _ IH]; simpl; auto. now rewrite Hx.
Qed.

Lemma filter_map_map_some {A B : Type} (f : A -> option B) (g : B -> A)
      (l : list B) :
  Forall (fun y => f (g y) = Some y) l -> filter_map f (map g l) = l.
Proof.
  induction 1 as [|y l Hy _ IH]; simpl; auto. now rewrite Hy, IH.
Qed.

Lemma filter_none {A : Type} (p : A -> bool) (l : list A) :
  Forall (fun x => p x = false) l -> filter p l = [].
Proof.
  induction 1 as [|x l Hx _ IH]; simpl; auto. now rewrite Hx.
Qed.

Lemma filter_all {A : Type} (p : A -> bool) (l : list A) :
  Forall (fun x => p x = true) l -> filter p l = l.
Proof.
  induction 1 as [|x l Hx _ IH]; simpl; auto. now rewrite Hx, IH.
Qed.

Lemma filter_Forall {A : Type} (p : A -> bool) (l : list A) :
  Forall (fun x => p x = true) (filter p l).
Proof.
  induction l as [|x l IH]; simpl; [constructor|].
  destruct (p x) eqn:E; auto.
Qed.

Lemma insert_sorted_perm (n : N) (l : list N) :
  Permutation (insert_sorted n l) (n :: l).
Proof.
  induction l as [|m l IH]; simpl; auto.
  destruct (n <=? m)%N; auto.
  rewrite IH. apply perm_swap.
Qed.

Lemma sort_indices_perm (l : list N) : Permutation (sort_indices l) l.
Proof.
  induction l as [|n l IH]; simpl; auto.
  rewrite insert_sorted_perm. now constructor.
Qed.

Lemma insert_sorted_ascending (n : N) (l : list N) :
  ascending l -> ascending (insert_sorted n l).
Proof.
  induction 1 as [|m|m m' l Hle Hl IH]; simpl.
  - constructor.
  - destruct (N.leb_spec n m); constructor; try constructor; lia.
  - destruct (N.leb_spec n m).
    + constructor; [assumption|]. now constructor.
    + simpl in IH. destruct (N.leb_spec n m').
      * constructor; [lia | assumption].
      * now constructor.
Qed.

Lemma sort_indices_ascending (l : list N) : ascending (sort_indices l).
Proof.
  induction l as [|n l IH]; simpl; [constructor|].
  now apply insert_sorted_ascending.
Qed.

Lemma sort_indices_fixed (l : list N) : ascending l -> sort_indices l = l.
Proof.
  induction 1 as [|m|n m l Hle Hl IH]; simpl; auto.
  simpl in IH. rewrite IH. simpl.
  destruct (N.leb_spec n m); [reflexivity | lia].
Qed.

Lemma sort_indices_Forall (P : N -> Prop) (l : list N) :
  Forall P l -> Forall P (sort_indices l).
Proof.
  intros H. rewrite Forall_forall in *. intros x Hx. apply H.
  eapply Permutation_in; [apply sort_indices_perm | exact Hx].
Qed.

Lemma sorted_indices_canonical (ks : list string) :
  Forall (fun n => array_index (string_of_N n) = Some n)
         (sort_indices (filter_map array_index ks)).
Proof.
  apply sort_indices_Forall.
  eapply Forall_impl; [|apply filter_map_Forall].
  intros n [s Hs]. simpl in Hs. exact (array_index_canonical _ _ Hs).
Qed.

Lemma OrdinaryOwnPropertyKeys_idempotent (ks : list string) :
  OrdinaryOwnPropertyKeys (OrdinaryOwnPropertyKeys ks) = OrdinaryOwnPropertyKeys ks.
Proof.
  unfold OrdinaryOwnPropertyKeys at 1.
  assert (Hidx : filter_map array_index (OrdinaryOwnPropertyKeys ks)
                 = sort_indices (filter_map array_index ks)).
  { unfold OrdinaryOwnPropertyKeys.
    assert (E : forall (a b : list string),
               filter_map array_index (a ++ b)
               = filter_map array_index a ++ filter_map array_index b).
    { induction a as [|x a IH]; intros b; simpl; auto.
      destruct (array_index x); simpl; now rewrite IH. }
    rewrite E, filter_map_map_some by apply sorted_indices_canonical.
    rewrite (filter_map_none array_index (filter _ ks)); [apply app_nil_r|].
    eapply Forall_impl; [|apply filter_Forall].
    intros k Hk. simpl in Hk. unfold is_array_index in Hk.
    destruct (array_index k); [discriminate | reflexivity]. }
  rewrite Hidx, sort_indices_fixed by apply sort_indices_ascending.
  unfold OrdinaryOwnPropertyKeys. f_equal.
  rewrite filter_app, filter_none.
  - simpl. apply filter_all.
    eapply Forall_impl; [|apply filter_Forall]. intros k Hk. exact Hk.
  - rewrite Forall_map.
    eapply Forall_impl; [|apply sorted_indices_canonical].
    intros n Hn. simpl in Hn. unfold is_array_index. now rewrite Hn.
Qed.

Lemma partition_perm {A : Type} (p : A -> bool) (l : list A) :
  Permutation (filter p l ++ filter (fun x => negb (p x)) l) l.
Proof.
  induction l as [|x l IH]; simpl; auto.
  destruct (p x); simpl.
  - now constructor.
  - rewrite <- Permutation_middle. now constructor.
Qed.

Lemma OrdinaryOwnPropertyKeys_perm (ks : list string) :
  Permutation (OrdinaryOwnPropertyKeys ks) ks.
Proof.
  unfold OrdinaryOwnPropertyKeys.
  rewrite (Permutation_map string_of_N (sort_indices_perm _)).
  rewrite indices_as_keys. apply partition_perm.
Qed.

Lemma OrdinaryOwnPropertyKeys_In (ks : list string) (k : string) :
  In k (OrdinaryOwnPropertyKeys ks) <-> In k ks.
Proof.
  split; apply Permutation_in;
    [|symmetry]; apply OrdinaryOwnPropertyKeys_perm.
Qed.

Lemma OrdinaryOwnPropertyKeys_NoDup (ks : list string) :
  NoDup ks -> NoDup (OrdinaryOwnPropertyKeys ks).
Proof.
  apply Permutation_NoDup. symmetry. apply OrdinaryOwnPropertyKeys_perm.
Qed.

(** Without array indices among the keys, the enumeration order is the
    creation order. *)
Lemma OrdinaryOwnPropertyKeys_plain (ks : list string) :
  Forall (fun k => is_array_index k = false) ks ->
  OrdinaryOwnPropertyKeys ks = ks.
Proof.
  intros H. unfold OrdinaryOwnPropertyKeys.
  rewrite filter_map_none.
  - simpl. apply filter_all. eapply Forall_impl; [|exact H].
    intros k Hk. simpl in Hk. now rewrite Hk.
  - eapply Forall_impl; [|exact H]. intros k Hk. simpl in Hk.
    unfold is_array_index in Hk. destruct (array_index k); [discriminate|reflexivity].
Qed.

(* ================================================================== *)
(** ** Running the reduction in the store *)

Lemma reduce_groups_eq (g : groups) :
  reduce_groups g = map (group_head g) (OrdinaryOwnPropertyKeys (map fst g)).
Proof.
  reflexivity.
Qed.

Lemma map_fst_as_props (g : groups) : map fst (as_props g) = map fst g.
Proof.
  unfold as_props. rewrite map_map. reflexivity.
Qed.

Lemma enumerable_as_props (g : groups) :
  filter (fun p => enumerable (snd p)) (as_props g) = as_props g.
Proof.
  induction g as [|[k es] g IH]; simpl; auto. now rewrite IH.
Qed.

Lemma forEach_reduce (h : heap) (l : loc) (ob : object) (g : groups)
      (ks : list string) (r : groups) :
  nth_error h l = Some ob ->
  props ob = as_props g ->
  (forall k, In k ks -> In k (map fst g)) ->
  NoDup ks ->
  (forall k, In k ks -> ~ In k (map fst r)) ->
  forEach ks
    (fun field =>
       s <- Get l field ;;
       x <- eval (first_element s) ;;
       Set_ (List.length h) field (SArr [x]))
    (h ++ [mkObject None (as_props r)]) =
  (Normal tt, h ++ [mkObject None (as_props (r ++ map (group_head g) ks))]).
Proof.
  intros Hl Hg. revert r.
  induction ks as [|k ks IH]; intros r Hin Hnd Hfresh.
  - simpl. now rewrite app_nil_r.
  - cbn [forEach]. unfold bind at 1. unfold bind at 1. unfold Get at 1.
    cbn [find_prop].
    rewrite nth_error_app1 by (apply nth_error_Some; congruence).
    rewrite Hl, Hg, assoc_as_props.
    assert (Hk : In k (map fst g)) by (apply Hin; now left).
    apply assoc_In_fst in Hk.
    destruct (assoc k g) as [es|] eqn:Ha; [|congruence].
    cbn [option_map snd first_element eval].
    unfold bind at 1. unfold Set_ at 1. unfold ret at 1. cbv beta iota.
    rewrite update_nth_last. cbn [proto props].
    unfold write_prop. rewrite assoc_as_props.
    assert (Hr : assoc k r = None).
    { apply assoc_None_not_In. apply Hfresh. now left. }
    rewrite Hr. cbn [option_map].
    change [(k, SArr [nth 0 es VUndefined])]
      with (as_props [(k, [nth 0 es VUndefined])]).
    rewrite <- as_props_app.
    inversion Hnd as [|? ? Hnk Hnd']; subst.
    rewrite IH.
    + rewrite <- app_assoc. cbn [map app]. unfold group_head at 2.
      now rewrite Ha.
    + intros k' Hk'. apply Hin. now right.
    + exact Hnd'.
    + intros k' Hk'. rewrite map_app, in_app_iff. cbn [map fst In].
      intros [H|[H|[]]].
      * apply (Hfresh k'); [now right | exact H].
      * subst k'. contradiction.
Qed.

Lemma reduceGroupedErrors_run (h : heap) (l : loc) (ob : object) (g : groups) :
  nth_error h l = Some ob ->
  props ob = as_props g ->
  NoDup (map fst g) ->
  reduceGroupedErrors l h =
  (Normal (List.length h), h ++ [mkObject None (as_props (reduce_groups g))]).
Proof.
  intros Hl Hg Hnd. unfold reduceGroupedErrors.
  unfold bind at 1. unfold Object_create at 1.
  unfold bind at 1. unfold Object_keys at 1.
  rewrite nth_error_app1 by (apply nth_error_Some; congruence).
  rewrite Hl, Hg, enumerable_as_props, map_fst_as_props.
  unfold bind at 1.
  change (@nil (string * slot)) with (as_props []).
  rewrite (forEach_reduce h l ob g _ [] Hl Hg).
  - reflexivity.
  - intros k. apply OrdinaryOwnPropertyKeys_In.
  - now apply OrdinaryOwnPropertyKeys_NoDup.
  - intros k _ [].
Qed.

(* ================================================================== *)
(** ** What the grouping computes *)

Lemma has_key_groupable (es : list value) :
  forallb has_key es = true <-> Forall groupable es.
Proof.
  rewrite forallb_forall, Forall_forall. unfold has_key, groupable.
  split; intros H e He; specialize (H e He); destruct (record_key e); congruence.
Qed.

Lemma group_records_outcome (g : groups) (es : list value) :
  fst (group_records g es) =
  if forallb has_key es then Normal tt else Throw TypeError.
Proof.
  revert g. induction es as [|e es IH]; intros g; simpl; auto.
  unfold has_key at 1. destruct (record_key e); simpl; auto.
Qed.

Lemma assoc_set_group (k k' : string) (es : list value) (g : groups) :
  assoc k' (set_group k es g) =
  if String.eqb k k'
  then match assoc k g with Some _ => Some es | None => None end
  else assoc k' g.
Proof.
  induction g as [|[k0 es0] g IH]; simpl.
  - now destruct (String.eqb k k').
  - destruct (String.eqb_spec k0 k) as [->|Hne]; simpl.
    + destruct (String.eqb_spec k k'); reflexivity.
    + destruct (String.eqb_spec k0 k') as [->|Hne'].
      * destruct (String.eqb_spec k k'); [congruence | reflexivity].
      * exact IH.
Qed.

Lemma map_fst_set_group (k : string) (es : list value) (g : groups) :
  map fst (set_group k es g) = map fst g.
Proof.
  induction g as [|[k0 es0] g IH]; simpl; auto.
  destruct (String.eqb k0 k); simpl; [reflexivity | now rewrite IH].
Qed.

Lemma assoc_add_record (k k' : string) (e : value) (g : groups) :
  assoc k' (add_record k e g) =
  if String.eqb k k'
  then Some (match assoc k g with Some es => es | None => [] end ++ [e])
  else assoc k' g.
Proof.
  unfold add_record. destruct (assoc k g) as [es|] eqn:Ha.
  - rewrite assoc_set_group, Ha. reflexivity.
  - rewrite assoc_app. simpl.
    destruct (String.eqb_spec k k') as [<-|Hne].
    + now rewrite Ha.
    + now destruct (assoc k' g).
Qed.

Lemma map_fst_add_record (k : string) (e : value) (g : groups) :
  map fst (add_record k e g) =
  match assoc k g with
  | Some _ => map fst g
  | None => map fst g ++ [k]
  end.
Proof.
  unfold add_record. destruct (assoc k g).
  - apply map_fst_set_group.
  - now rewrite map_app.
Qed.

Lemma add_record_NoDup (k : string) (e : value) (g : groups) :
  NoDup (map fst g) -> NoDup (map fst (add_record k e g)).
Proof.
  intros H. rewrite map_fst_add_record.
  destruct (assoc k g) eqn:Ha; auto.
  apply assoc_None_not_In in Ha.
  apply NoDup_app; auto.
  - repeat constructor. simpl. tauto.
  - intros x Hx [<-|[]]. contradiction.
Qed.

Lemma group_records_NoDup (es : list value) (g : groups) :
  NoDup (map fst g) -> NoDup (map fst (snd (group_records g es))).
Proof.
  revert g. induction es as [|e es IH]; intros g H; simpl; auto.
  destruct (record_key e); auto. apply IH. now apply add_record_NoDup.
Qed.

(** The list grouped under a key: what was there, then the records of that
    key in order. *)
Lemma group_records_assoc (k : string) (es : list value) (g : groups) :
  Forall groupable es ->
  assoc k (snd (group_records g es)) =
  match assoc k g, filter (key_is k) es with
  | Some xs, l => Some (xs ++ l)
  | None, [] => None
  | None, l => Some l
  end.
Proof.
  intros H. revert g. induction H as [|e es He _ IH]; intros g.
  - simpl. destruct (assoc k g); [now rewrite app_nil_r | reflexivity].
  - unfold groupable in He. cbn [group_records filter].
    assert (Hke : forall k0, record_key e = Some k0 -> key_is k e = String.eqb k0 k).
    { intros k0 E. unfold key_is. now rewrite E. }
    destruct (record_key e) as [k0|] eqn:Hk; [|congruence].
    rewrite (Hke k0 eq_refl), IH, assoc_add_record.
    destruct (String.eqb_spec k0 k) as [->|Hne].
    + destruct (assoc k g); simpl; now rewrite <- ?app_assoc.
    + reflexivity.
Qed.

Lemma filter_filter {A : Type} (p q : A -> bool) (l : list A) :
  filter p (filter q l) = filter (fun x => q x && p x) l.
Proof.
  induction l as [|x l IH]; simpl; auto.
  destruct (q x); simpl; [destruct (p x)|]; now rewrite IH.
Qed.

(** The keys of the grouping, in creation order: those that were there,
    then the new ones in the order of their first record. *)
Lemma group_records_keys (es : list value) (g : groups) :
  Forall groupable es ->
  map fst (snd (group_records g es)) =
  map fst g ++ filter (absent g) (first_seen (filter_map record_key es)).
Proof.
  intros H. revert g. induction H as [|e es He _ IH]; intros g; simpl.
  - now rewrite app_nil_r.
  - unfold groupable in He.
    destruct (record_key e) as [k|] eqn:Hk; [|congruence].
    rewrite IH, map_fst_add_record. cbn [first_seen filter].
    assert (Habs : forall k', absent (add_record k e g) k'
                              = (negb (String.eqb k' k) && absent g k')%bool).
    { intros k'. unfold absent. rewrite assoc_add_record.
      rewrite (String.eqb_sym k' k).
      destruct (String.eqb k k'); simpl; [reflexivity | now destruct (assoc k' g)]. }
    rewrite filter_filter. rewrite (filter_ext _ _ Habs).
    unfold absent at 2. destruct (assoc k g) eqn:Ha.
    + reflexivity.
    + rewrite <- app_assoc. reflexivity.
Qed.

Lemma filter_true {A : Type} (l : list A) : filter (fun _ => true) l = l.
Proof.
  induction l as [|x l IH]; simpl; [reflexivity | now rewrite IH].
Qed.

Lemma grouping_keys (es : list value) :
  Forall groupable es ->
  map fst (snd (group_records [] es)) = first_seen (filter_map record_key es).
Proof.
  intros H. rewrite (group_records_keys es [] H). simpl. apply filter_true.
Qed.

Lemma first_seen_In (ks : list string) (k : string) :
  In k (first_seen ks) <-> In k ks.
Proof.
  induction ks as [|k0 ks IH]; simpl; [tauto|].
  rewrite filter_In, IH.
  destruct (String.eqb_spec k k0) as [->|Hne]; simpl.
  - split; auto.
  - tauto.
Qed.

Lemma filter_map_In {A B : Type} (f : A -> option B) (l : list A) (y : B) :
  In y (filter_map f l) <-> exists x, In x l /\ f x = Some y.
Proof.
  induction l as [|x l IH]; simpl.
  - split; [tauto | intros [? [[] _]]].
  - destruct (f x) as [y0|] eqn:E; simpl; rewrite IH.
    + split.
      * intros [->|[x' [H1 H2]]]; eauto.
      * intros [x' [[->|H1] H2]]; [left; congruence | eauto].
    + split.
      * intros [x' [H1 H2]]; eauto.
      * intros [x' [[->|H1] H2]]; [congruence | eauto].
Qed.

Lemma grouping_assoc (k : string) (es : list value) :
  Forall groupable es ->
  assoc k (snd (group_records [] es)) =
  match filter (key_is k) es with
  | [] => None
  | l => Some l
  end.
Proof.
  intros H. now rewrite (group_records_assoc k es [] H).
Qed.

(* ================================================================== *)
(** ** What [gatherErrors] does to the store and what it returns *)

Lemma grouping_NoDup (rs : list value) : NoDup (map fst (grouping rs)).
Proof.
  apply group_records_NoDup. constructor.
Qed.

Lemma groupErrors_run (flag : bool) (rs : list value) (h : heap) :
  groupErrors flag rs h =
  if forallb has_key (all_records rs)
  then (Normal (final_loc flag h), h ++ created flag rs)
  else (Throw TypeError, h ++ [mkObject None (as_props (grouping rs))]).
Proof.
  unfold groupErrors. unfold bind at 1. unfold Object_create at 1.
  unfold bind at 1.
  change (@nil (string * slot)) with (as_props []).
  rewrite forEach_results, group_records_outcome.
  fold (grouping rs).
  destruct (forallb has_key (all_records rs)); [|reflexivity].
  destruct flag; unfold created, final_loc; [|reflexivity].
  rewrite (reduceGroupedErrors_run _ (List.length h)
             (mkObject None (as_props (grouping rs))) (grouping rs)
             (nth_error_last h _) eq_refl (grouping_NoDup rs)).
  rewrite length_app, <- app_assoc. simpl.
  now replace (List.length h + 1) with (S (List.length h)) by lia.
Qed.

Lemma map_fst_reduce_groups (g : groups) :
  map fst (reduce_groups g) = OrdinaryOwnPropertyKeys (map fst g).
Proof.
  unfold reduce_groups. rewrite map_map. simpl. apply map_id.
Qed.

Lemma final_keys (flag : bool) (rs : list value) :
  OrdinaryOwnPropertyKeys (map fst (final_groups flag rs)) =
  OrdinaryOwnPropertyKeys (map fst (grouping rs)).
Proof.
  destruct flag; simpl; [|reflexivity].
  rewrite map_fst_reduce_groups. apply OrdinaryOwnPropertyKeys_idempotent.
Qed.

Lemma object_at_final (flag : bool) (rs : list value) (h : heap) :
  object_at (h ++ created flag rs) (final_loc flag h) =
  Some (mkObject None (as_props (final_groups flag rs))).
Proof.
  unfold object_at, created, final_loc, final_groups. destruct flag.
  - rewrite nth_error_app2 by lia.
    replace (S (List.length h) - List.length h) with 1 by lia. reflexivity.
  - apply nth_error_last.
Qed.

Lemma Object_keys_final (flag : bool) (rs : list value) (h : heap) :
  Object_keys (final_loc flag h) (h ++ created flag rs) =
  (Normal (OrdinaryOwnPropertyKeys (map fst (grouping rs))), h ++ created flag rs).
Proof.
  unfold Object_keys.
  pose proof (object_at_final flag rs h) as H. unfold object_at in H.
  rewrite H. cbn [props].
  now rewrite enumerable_as_props, map_fst_as_props, final_keys.
Qed.

Lemma gatherErrors_run (flag : bool) (rs : list value) (h : heap) :
  gatherErrors flag rs h =
  if forallb has_key (all_records rs)
  then (Normal (if Nat.eqb (List.length (grouping rs)) 0
                then Promise_resolve
                else Promise_reject (final_loc flag h)),
        h ++ created flag rs)
  else (Throw TypeError, h ++ [mkObject None (as_props (grouping rs))]).
Proof.
  unfold gatherErrors. unfold bind at 1. rewrite groupErrors_run.
  destruct (forallb has_key (all_records rs)); [|reflexivity].
  unfold bind. rewrite Object_keys_final. unfold ret.
  rewrite (Permutation_length (OrdinaryOwnPropertyKeys_perm _)), length_map.
  reflexivity.
Qed.

Lemma keys_at_final (flag : bool) (rs : list value) (h : heap) :
  keys_at (h ++ created flag rs) (final_loc flag h) =
  OrdinaryOwnPropertyKeys (map fst (grouping rs)).
Proof.
  unfold keys_at. now rewrite Object_keys_final.
Qed.

Lemma own_at_final (flag : bool) (rs : list value) (h : heap) (k : string) :
  own_at (h ++ created flag rs) (final_loc flag h) k =
  option_map SArr (assoc k (final_groups flag rs)).
Proof.
  unfold own_at. rewrite object_at_final. cbn [props]. apply assoc_as_props.
Qed.

Lemma grouping_keys_fields (rs : list value) :
  Forall groupable (all_records rs) ->
  map fst (grouping rs) = first_seen (fields_of rs).
Proof.
  apply grouping_keys.
Qed.

Lemma filter_map_length_groupable (es : list value) :
  Forall groupable es -> List.length (filter_map record_key es) = List.length es.
Proof.
  induction 1 as [|e es He _ IH]; simpl; auto.
  unfold groupable in He. destruct (record_key e); [|congruence].
  simpl. now rewrite IH.
Qed.

(** The grouping is empty exactly when no array result holds a record. *)
Lemma grouping_empty (rs : list value) :
  Forall groupable (all_records rs) ->
  Nat.eqb (List.length (grouping rs)) 0 =
  match all_records rs with [] => true | _ => false end.
Proof.
  intros H. rewrite <- (length_map fst), (grouping_keys_fields rs H).
  unfold fields_of. pose proof (filter_map_length_groupable _ H) as L.
  destruct (all_records rs) as [|e es]; [reflexivity|].
  destruct (filter_map record_key (e :: es)) as [|k ks]; [discriminate|].
  reflexivity.
Qed.

Lemma assoc_map_key {A : Type} (f : string -> A) (ks : list string) (k : string) :
  assoc k (map (fun x => (x, f x)) ks) =
  if in_dec string_dec k ks then Some (f k) else None.
Proof.
  induction ks as [|k0 ks IH]; simpl; [reflexivity|].
  destruct (String.eqb_spec k0 k) as [->|Hne].
  - destruct (string_dec k k); [reflexivity | congruence].
  - rewrite IH. destruct (string_dec k0 k); [congruence|].
    destruct (in_dec string_dec k ks); reflexivity.
Qed.

Lemma assoc_reduce_groups (g : groups) (k : string) :
  assoc k (reduce_groups g) =
  match assoc k g with
  | Some es => Some [nth 0 es VUndefined]
  | None => None
  end.
Proof.
  unfold reduce_groups.
  rewrite (assoc_map_key
             (fun k => [nth 0 (match assoc k g with Some es => es | None => [] end)
                            VUndefined])).
  destruct (in_dec string_dec k (OrdinaryOwnPropertyKeys (map fst g))) as [Hin|Hout].
  - apply OrdinaryOwnPropertyKeys_In, assoc_In_fst in Hin.
    destruct (assoc k g); [reflexivity | congruence].
  - rewrite OrdinaryOwnPropertyKeys_In, <- assoc_In_fst in Hout.
    destruct (assoc k g); [|reflexivity]. exfalso. apply Hout. discriminate.
Qed.

(* ================================================================== *)
(** ** The exported function *)

Lemma Promise_all_fulfilled (rs : list value) :
  Promise_all (map Fulfilled rs) = inl rs.
Proof.
  induction rs as [|r rs IH]; simpl; [reflexivity | now rewrite IH].
Qed.

Lemma processor_awaits {validator : Type} queueValidator
      (p : option (params validator)) (rs : list value) (h : heap) :
  validatorQueue queueValidator p = map Fulfilled rs ->
  rs <> [] ->
  processor queueValidator p h = then_ (inl rs) (gatherErrors (flag_of p)) h.
Proof.
  intros Hq Hne. unfold processor. rewrite Hq, Promise_all_fulfilled.
  destruct rs; [congruence | reflexivity].
Qed.

Lemma all_records_nil (rs : list value) :
  all_records rs = [] <-> forallb quiet (map Fulfilled rs) = true.
Proof.
  induction rs as [|r rs IH]; simpl; [tauto|].
  fold (all_records rs).
  destruct r as [| | | | | |[|e es]]; simpl; try exact IH.
  split; discriminate.
Qed.

Lemma Promise_all_rejected (q : list promise) (x : reason) :
  Promise_all q = inr x -> forallb quiet q = false.
Proof.
  induction q as [|[v|y] q IH]; simpl; try discriminate.
  - destruct (Promise_all q); [discriminate|].
    intros H. rewrite (IH H). apply andb_false_r.
  - reflexivity.
Qed.

Lemma Promise_all_values (q : list promise) (vs : list value) :
  Promise_all q = inl vs -> q = map Fulfilled vs.
Proof.
  revert vs. induction q as [|[v|y] q IH]; simpl; intros vs H.
  - now injection H as <-.
  - destruct (Promise_all q) as [vs'|]; [|discriminate].
    injection H as <-. simpl. now rewrite (IH vs' eq_refl).
  - discriminate.
Qed.

Lemma gatherErrors_fulfilled (flag : bool) (rs : list value) (h : heap) :
  is_fulfilled (fst (then_ (inl rs) (gatherErrors flag) h)) =
  match all_records rs with [] => true | _ => false end.
Proof.
  unfold then_. rewrite gatherErrors_run.
  destruct (forallb has_key (all_records rs)) eqn:Hk.
  - rewrite grouping_empty by now apply has_key_groupable.
    now destruct (all_records rs).
  - destruct (all_records rs); [discriminate | reflexivity].
Qed.

Lemma processor_fulfilled {validator : Type} queueValidator
      (p : option (params validator)) (h : heap) :
  is_fulfilled (fst (processor queueValidator p h)) =
  forallb quiet (validatorQueue queueValidator p).
Proof.
  unfold processor.
  destruct (validatorQueue queueValidator p) as [|u q] eqn:Hq; [reflexivity|].
  cbn [List.length Nat.eqb negb].
  destruct (Promise_all (u :: q)) as [vs|x] eqn:Hall.
  - rewrite gatherErrors_fulfilled.
    rewrite (Promise_all_values _ _ Hall).
    destruct (forallb quiet (map Fulfilled vs)) eqn:Hquiet.
    + apply all_records_nil in Hquiet. now rewrite Hquiet.
    + destruct (all_records vs) eqn:Hrec; [|reflexivity].
      apply all_records_nil in Hrec. congruence.
  - now rewrite (Promise_all_rejected _ _ Hall).
Qed.

Lemma forallb_perm {A : Type} (f : A -> bool) (l l' : list A) :
  Permutation l l' -> forallb f l = forallb f l'.
Proof.
  induction 1 as [|x l l' _ IH|x y l|l l' l'' _ IH1 _ IH2]; simpl.
  - reflexivity.
  - now rewrite IH.
  - now rewrite !andb_assoc, (andb_comm (f y)).
  - congruence.
Qed.

(* ================================================================== *)
(** ** Outcome of the aggregation *)


Lemma gatherErrors_rejects (flag : bool) (rs : list value) (h : heap) :
  Forall groupable (all_records rs) ->
  all_records rs <> [] ->
  gatherErrors flag rs h =
  (Normal (Promise_reject (final_loc flag h)), h ++ created flag rs).
Proof.
  intros Hg Hne. rewrite gatherErrors_run.
  rewrite (proj2 (has_key_groupable _) Hg), (grouping_empty rs Hg).
  destruct (all_records rs); [congruence | reflexivity].
Qed.

Lemma gatherErrors_throws (flag : bool) (rs : list value) (h : heap) :
  ~ Forall groupable (all_records rs) ->
  fst (gatherErrors flag rs h) = Throw TypeError.
Proof.
  intros Hg. rewrite gatherErrors_run.
  destruct (forallb has_key (all_records rs)) eqn:E; [|reflexivity].
  exfalso. apply Hg. now apply has_key_groupable.
Qed.

Lemma all_records_In (rs : list value) (e : value) :
  In e (all_records rs) <-> exists es, In (VArr es) rs /\ In e es.
Proof.
  unfold all_records. rewrite in_flat_map. split.
  - intros [r [Hr He]]. destruct r; try contradiction. eauto.
  - intros [es [Hr He]]. exists (VArr es). auto.
Qed.

Lemma fields_of_In (rs : list value) (k : string) :
  In k (fields_of rs) <->
  exists e, In e (all_records rs) /\ record_key e = Some k.
Proof.
  apply filter_map_In.
Qed.

Lemma ErrorRecord_key (e : value) :
  ErrorRecord e -> exists s, record_key e = Some s /\ field_of e s.
Proof.
  intros [own [s [-> H]]]. exists s. unfold record_key, field_of. simpl.
  now rewrite H.
Qed.

Lemma ErrorRecord_groupable (e : value) : ErrorRecord e -> groupable e.
Proof.
  intros H. destruct (ErrorRecord_key e H) as [s [Hs _]].
  unfold groupable. congruence.
Qed.




(** The keys that [Object.keys] lists for the final mapping are the keys of
    the records. *)
Lemma final_keys_In (flag : bool) (rs : list value) (h : heap) (k : string) :
  Forall groupable (all_records rs) ->
  In k (keys_at (h ++ created flag rs) (final_loc flag h)) <->
  In k (fields_of rs).
Proof.
  intros Hg.
  now rewrite keys_at_final, OrdinaryOwnPropertyKeys_In,
    (grouping_keys_fields rs Hg), first_seen_In.
Qed.


(** C5. With an empty [fieldValidators] (given empty, omitted, or with the
    whole parameters object omitted) no unit is queued, whatever
    [queueValidator] is, and the processor resolves at once, leaving the
    store as it was. *)
Theorem empty_fieldValidators_resolve
        {validator : Type} queueValidator (p : option (params validator))
        (h : heap) :
  fieldValidators_of p = [] ->
  validatorQueue queueValidator p = [] /\
  processor queueValidator p h = (Promise_resolve, h).
Proof.
  intros H.
  assert (Hq : validatorQueue queueValidator p = []).
  { unfold validatorQueue. fold (fieldValidators_of p). now rewrite H. }
  split; [exact Hq|]. unfold processor. now rewrite Hq.
Qed.

(** C8. The classification of the outcome does not depend on the order of
    the units: two invocations whose queues of settled units are
    permutations of each other both resolve or both reject; and for unit
    results whose records all have a key, the classification is decided by
    the set of fields with errors. *)
Theorem classification_ignores_order
        {validator : Type} qv1 qv2 (p1 p2 : option (params validator))
        (h1 h2 : heap) :
  (Permutation (validatorQueue qv1 p1) (validatorQueue qv2 p2) ->
   is_fulfilled (fst (processor qv1 p1 h1)) =
   is_fulfilled (fst (processor qv2 p2 h2)))
  /\
  (forall rs1 rs2,
      validatorQueue qv1 p1 = map Fulfilled rs1 ->
      validatorQueue qv2 p2 = map Fulfilled rs2 ->
      Forall groupable (all_records rs1) ->
      Forall groupable (all_records rs2) ->
      (forall k, In k (fields_of rs1) <-> In k (fields_of rs2)) ->
      is_fulfilled (fst (processor qv1 p1 h1)) =
      is_fulfilled (fst (processor qv2 p2 h2))).
Proof.
  split.
  - intros HP. rewrite !processor_fulfilled. now apply forallb_perm.
  - intros rs1 rs2 H1 H2 Hg1 Hg2 Hset.
    rewrite !processor_fulfilled, H1, H2.
    assert (E : forall rs, Forall groupable (all_records rs) ->
                forallb quiet (map Fulfilled rs) =
                match fields_of rs with [] => true | _ => false end).
    { intros rs Hg. pose proof (filter_map_length_groupable _ Hg) as L.
      fold (fields_of rs) in L.
      destruct (forallb quiet (map Fulfilled rs)) eqn:Hquiet.
      - apply all_records_nil in Hquiet. rewrite Hquiet in L.
        now destruct (fields_of rs).
      - destruct (fields_of rs); [|reflexivity].
        destruct (all_records rs) eqn:Hrec; [|discriminate].
        apply all_records_nil in Hrec. congruence. }
    rewrite (E rs1 Hg1), (E rs2 Hg2).
    destruct (fields_of rs1) as [|k1 l1], (fields_of rs2) as [|k2 l2]; auto.
    + destruct (proj2 (Hset k2) (or_introl eq_refl)).
    + destruct (proj1 (Hset k1) (or_introl eq_refl)).
Qed.

Lemma filter_head_find {A : Type} (p : A -> bool) (l : list A) (x : A) (xs : list A) :
  filter p l = x :: xs -> find p l = Some x.
Proof.
  induction l as [|y l IH]; simpl; [discriminate|].
  destruct (p y); [congruence | exact IH].
Qed.

Lemma records_for_nonempty (rs : list value) (k : string) :
  In k (fields_of rs) <-> records_for k rs <> [].
Proof.
  rewrite fields_of_In. unfold records_for. split.
  - intros [e [He Hk]] H.
    assert (Hin : In e (filter (key_is k) (all_records rs))).
    { apply filter_In. split; [exact He|]. unfold key_is.
      rewrite Hk. apply String.eqb_refl. }
    rewrite H in Hin. contradiction.
  - intros H. destruct (filter (key_is k) (all_records rs)) as [|e es] eqn:E;
      [congruence|].
    assert (Hin : In e (filter (key_is k) (all_records rs)))
      by (rewrite E; now left).
    apply filter_In in Hin. destruct Hin as [He Hk].
    exists e. split; [exact He|]. unfold key_is in Hk.
    destruct (record_key e) as [k'|]; [|discriminate].
    apply String.eqb_eq in Hk. congruence.
Qed.

Lemma final_groups_assoc (flag : bool) (rs : list value) (k : string) :
  Forall groupable (all_records rs) ->
  assoc k (final_groups flag rs) =
  match records_for k rs with
  | [] => None
  | e :: es => Some (if flag then [e] else e :: es)
  end.
Proof.
  intros Hg. unfold final_groups, records_for. destruct flag.
  - rewrite assoc_reduce_groups. unfold grouping.
    rewrite (grouping_assoc k _ Hg).
    now destruct (filter (key_is k) (all_records rs)).
  - unfold grouping. rewrite (grouping_assoc k _ Hg).
    now destruct (filter (key_is k) (all_records rs)).
Qed.

(** C2. With [reduceErrors] set, and unit results that yield a mapping (some
    record, every record with a key), the processor's handler rejects with
    a mapping that lists exactly the fields with errors, and in which every
    such field holds exactly one record: the first record of that field in
    dispatch order.  It has no other property. *)
Theorem reduction_keeps_first_record (rs : list value) (h : heap) :
  Forall groupable (all_records rs) ->
  all_records rs <> [] ->
  exists l h',
    gatherErrors true rs h = (Normal (Rejected (RObject l)), h') /\
    (forall k, In k (keys_at h' l) <-> In k (fields_of rs)) /\
    (forall k,
        In k (fields_of rs) ->
        exists e,
          own_at h' l k = Some (SArr [e]) /\
          find (key_is k) (all_records rs) = Some e) /\
    (forall k, ~ In k (fields_of rs) -> own_at h' l k = None).
Proof.
  intros Hg Hne. exists (final_loc true h), (h ++ created true rs).
  split; [now apply gatherErrors_rejects|].
  split; [intros k; apply (final_keys_In _ _ _ _ Hg)|].
  split.
  - intros k Hk. apply (records_for_nonempty rs k) in Hk.
    rewrite own_at_final, (final_groups_assoc true rs k Hg).
    unfold records_for in *.
    destruct (filter (key_is k) (all_records rs)) as [|e es] eqn:E; [congruence|].
    exists e. split; [reflexivity|]. exact (filter_head_find _ _ _ _ E).
  - intros k Hk. rewrite (records_for_nonempty rs k) in Hk.
    rewrite own_at_final, (final_groups_assoc true rs k Hg).
    destruct (records_for k rs); [reflexivity|].
    exfalso. apply Hk. discriminate.
Qed.

(** C7. The mapping that the aggregation builds, reduced or not: a field is
    one of its keys exactly when some record was grouped under it, a key is
    listed exactly when the object has the property, and every property
    holds a non-empty list of records. *)
Theorem mapping_has_no_empty_entry (flag : bool) (rs : list value) (h : heap) :
  Forall groupable (all_records rs) ->
  exists l h',
    groupErrors flag rs h = (Normal l, h') /\
    (forall k, In k (keys_at h' l) <-> records_for k rs <> []) /\
    (forall k, In k (keys_at h' l) <-> own_at h' l k <> None) /\
    (forall k s, own_at h' l k = Some s -> exists e es, s = SArr (e :: es)).
Proof.
  intros Hg. exists (final_loc flag h), (h ++ created flag rs).
  split; [|split; [|split]].
  - rewrite groupErrors_run. now rewrite (proj2 (has_key_groupable _) Hg).
  - intros k. rewrite (final_keys_In _ _ _ _ Hg).
    apply (records_for_nonempty rs k).
  - intros k. rewrite (final_keys_In _ _ _ _ Hg), own_at_final,
      (final_groups_assoc flag rs k Hg), (records_for_nonempty rs k).
    destruct (records_for k rs); simpl; split; congruence.
  - intros k s. rewrite own_at_final, (final_groups_assoc flag rs k Hg).
    destruct (records_for k rs) as [|e es]; simpl; [discriminate|].
    intros H. injection H as <-. destruct flag; eauto.
Qed.

(** What [gatherErrors] lists for records of any fields, in any order: the
    fields that are array indices first, in ascending numeric order, then
    the other fields in the order in which their first record was met.
    The properties were created in the order of first records when the
    mapping is not reduced, and in the listed order when it is. *)
Lemma mapping_enumeration_order (flag : bool) (rs : list value) (h : heap) :
  Forall groupable (all_records rs) ->
  all_records rs <> [] ->
  exists l h' ob,
    gatherErrors flag rs h = (Normal (Rejected (RObject l)), h') /\
    object_at h' l = Some ob /\
    keys_at h' l = OrdinaryOwnPropertyKeys (first_seen (fields_of rs)) /\
    (Forall (fun k => is_array_index k = false) (fields_of rs) ->
     keys_at h' l = first_seen (fields_of rs)) /\
    map fst (props ob) =
      if flag
      then OrdinaryOwnPropertyKeys (first_seen (fields_of rs))
      else first_seen (fields_of rs).
Proof.
  intros Hg Hne.
  exists (final_loc flag h), (h ++ created flag rs),
    (mkObject None (as_props (final_groups flag rs))).
  split; [now apply gatherErrors_rejects|].
  split; [apply object_at_final|].
  rewrite keys_at_final, (grouping_keys_fields rs Hg).
  split; [reflexivity|]. split.
  - intros Hplain. apply OrdinaryOwnPropertyKeys_plain.
    rewrite Forall_forall in *. intros k Hk. apply Hplain.
    now apply first_seen_In.
  - cbn [props]. rewrite map_fst_as_props. unfold final_groups.
    destruct flag.
    + now rewrite map_fst_reduce_groups, (grouping_keys_fields rs Hg).
    + apply (grouping_keys_fields rs Hg).
Qed.

Lemma created_length (flag : bool) (rs : list value) (h : heap) (l : loc) :
  l < List.length h -> object_at (h ++ created flag rs) l = object_at h l.
Proof.
  intros H. unfold object_at. now apply nth_error_app1.
Qed.

Lemma Get_fresh (h : heap) (k : string) :
  Get (List.length h) k (h ++ [mkObject None []]) =
  (Normal None, h ++ [mkObject None []]).
Proof.
  unfold Get. now rewrite find_prop_last.
Qed.

(** C9. A field named like a property of [Object.prototype] is grouped like
    any other field, in any store (one that holds [Object.prototype]
    included): the look-up in the fresh accumulator finds nothing, the
    mapping has no prototype and gets an own property for the field, holding
    the records of that field, and every object that was in the store is
    left as it was. *)
Theorem inherited_names_are_ordinary_fields
        (flag : bool) (rs : list value) (h : heap) (k : string) :
  Forall groupable (all_records rs) ->
  In k (fields_of rs) ->
  fst (Get (List.length h) k (h ++ [mkObject None []])) = Normal None /\
  exists l h' e es,
    gatherErrors flag rs h = (Normal (Rejected (RObject l)), h') /\
    records_for k rs = e :: es /\
    object_at h' l =
      Some (mkObject None (as_props (final_groups flag rs))) /\
    own_at h' l k = Some (SArr (if flag then [e] else e :: es)) /\
    (forall l', l' < List.length h -> object_at h' l' = object_at h l').
Proof.
  intros Hg Hk. split; [now rewrite Get_fresh|].
  assert (Hne : all_records rs <> []).
  { apply fields_of_In in Hk. destruct Hk as [e [He _]].
    intros E. rewrite E in He. contradiction. }
  apply records_for_nonempty in Hk.
  destruct (records_for k rs) as [|e es] eqn:E; [congruence|].
  exists (final_loc flag h), (h ++ created flag rs), e, es.
  split; [now apply gatherErrors_rejects|].
  split; [reflexivity|]. split; [apply object_at_final|]. split.
  - now rewrite own_at_final, (final_groups_assoc flag rs k Hg), E.
  - intros l'. apply created_length.
Qed.

(** C10. On a mapping whose lists are all non-empty, [reduceGroupedErrors]
    returns a new object that lists the same keys in the same order, holds
    for each key the one-element list of the head of the input's list, and
    has no other property; the input mapping and every other object of the
    store are unchanged. *)
Theorem reduceGroupedErrors_keeps_heads
        (h : heap) (errors : loc) (ob : object) (g : groups) :
  object_at h errors = Some ob ->
  props ob = as_props g ->
  NoDup (map fst g) ->
  Forall (fun p => snd p <> []) g ->
  exists h',
    reduceGroupedErrors errors h = (Normal (List.length h), h') /\
    keys_at h' (List.length h) = keys_at h errors /\
    (forall k es, assoc k g = Some es ->
       exists x, hd_error es = Some x /\
                 own_at h' (List.length h) k = Some (SArr [x])) /\
    (forall k, assoc k g = None -> own_at h' (List.length h) k = None) /\
    (forall l, l < List.length h -> object_at h' l = object_at h l).
Proof.
  intros Hob Hg Hnd Hne. unfold object_at in Hob.
  exists (h ++ [mkObject None (as_props (reduce_groups g))]).
  split; [exact (reduceGroupedErrors_run h errors ob g Hob Hg Hnd)|].
  assert (Hown : forall k, own_at (h ++ [mkObject None (as_props (reduce_groups g))])
                             (List.length h) k
                           = option_map SArr (assoc k (reduce_groups g))).
  { intros k. unfold own_at, object_at. rewrite nth_error_last.
    apply assoc_as_props. }
  split; [|split; [|split]].
  - unfold keys_at, Object_keys. rewrite nth_error_last, Hob, Hg. cbn [props].
    rewrite !enumerable_as_props, !map_fst_as_props, map_fst_reduce_groups.
    apply OrdinaryOwnPropertyKeys_idempotent.
  - intros k es Hk. rewrite Hown, assoc_reduce_groups, Hk.
    rewrite Forall_forall in Hne.
    destruct es as [|x xs].
    + exfalso.
      assert (Hin : In (k, @nil value) g).
      { clear - Hk. induction g as [|[k' es'] g IH]; simpl in *; [discriminate|].
        destruct (String.eqb_spec k' k) as [->|]; [left; congruence | right; auto]. }
      now apply (Hne _ Hin).
    + exists x. split; reflexivity.
  - intros k Hk. now rewrite Hown, assoc_reduce_groups, Hk.
  - intros l Hl. unfold object_at. now apply nth_error_app1.
Qed.

Lemma all_records_arrays (rs : list value) :
  all_records (filter Array_isArray rs) = all_records rs.
Proof.
  induction rs as [|r rs IH]; [reflexivity|].
  cbn [filter all_records flat_map]. fold (all_records rs).
  destruct r; cbn [Array_isArray app]; try exact IH.
  cbn [all_records flat_map]. fold (all_records (filter Array_isArray rs)).
  now rewrite IH.
Qed.

Lemma gatherErrors_records (flag : bool) (rs rs' : list value) (h : heap) :
  all_records rs = all_records rs' ->
  gatherErrors flag rs h = gatherErrors flag rs' h.
Proof.
  intros E. rewrite !gatherErrors_run. unfold created, grouping.
  now rewrite E.
Qed.

Lemma fieldless_key (e : value) : fieldless e -> record_key e = Some "undefined".
Proof.
  intros [own [-> H]]. unfold record_key. simpl. now rewrite H.
Qed.

(** C3, as the code has it.  For unit results that are non-lists or lists
    of objects, with a string [field] or with none: the aggregation does not
    throw; the non-list results contribute nothing (the outcome and the
    store are those of the list results alone); and a record without a
    [field] is not dropped, it is grouped under the key [undefined]: the
    outcome is a rejection whose mapping lists that key, and the list under
    that key holds all the records grouped there, this one among them, when
    the mapping is not reduced, and only the first of them when it is. *)
Theorem fieldless_records_are_grouped
        (flag : bool) (rs : list value) (h : heap) :
  Forall (fun r => Array_isArray r = false \/
                   exists es, r = VArr es /\
                              Forall (fun e => ErrorRecord e \/ fieldless e) es)
         rs ->
  (exists p h', gatherErrors flag rs h = (Normal p, h')) /\
  gatherErrors flag rs h = gatherErrors flag (filter Array_isArray rs) h /\
  (forall es e,
      In (VArr es) rs -> In e es -> fieldless e ->
      exists l h' x xs,
        gatherErrors flag rs h = (Normal (Rejected (RObject l)), h') /\
        In "undefined" (keys_at h' l) /\
        records_for "undefined" rs = x :: xs /\
        In e (x :: xs) /\
        own_at h' l "undefined" = Some (SArr (if flag then [x] else x :: xs))).
Proof.
  intros Hrs.
  assert (Hg : Forall groupable (all_records rs)).
  { rewrite Forall_forall in *. intros e He.
    apply all_records_In in He. destruct He as [es [Hes He]].
    destruct (Hrs _ Hes) as [Hno|[es' [E Hall]]]; [discriminate|].
    injection E as <-. rewrite Forall_forall in Hall.
    destruct (Hall e He) as [Hr|Hf].
    - now apply ErrorRecord_groupable.
    - unfold groupable. rewrite (fieldless_key e Hf). discriminate. }
  split; [|split].
  - rewrite gatherErrors_run, (proj2 (has_key_groupable _) Hg). eauto.
  - apply gatherErrors_records. symmetry. apply all_records_arrays.
  - intros es e Hes He Hf.
    assert (Hin : In e (all_records rs)) by (apply all_records_In; eauto).
    assert (Hne : all_records rs <> []).
    { intros E. rewrite E in Hin. contradiction. }
    assert (Hrec : In e (records_for "undefined" rs)).
    { unfold records_for. apply filter_In. split; [exact Hin|].
      unfold key_is. now rewrite (fieldless_key e Hf). }
    destruct (records_for "undefined" rs) as [|x xs] eqn:E; [contradiction|].
    exists (final_loc flag h), (h ++ created flag rs), x, xs.
    split; [now apply gatherErrors_rejects|]. split; [|split; [|split]]; auto.
    + apply (final_keys_In _ _ _ _ Hg), records_for_nonempty. congruence.
    + now rewrite own_at_final, (final_groups_assoc flag rs _ Hg), E.
Qed.

(** C4, as the code has it.  When every element of every list result has a
    key (it is neither [null] nor [undefined], and its [field] converts to a
    property key), [gatherErrors] returns normally, and a unit result that
    is not a list counts as no errors: the call behaves as on the list
    results alone. *)
Theorem gatherErrors_returns_on_keyed_records
        (flag : bool) (rs : list value) (h : heap) :
  Forall groupable (all_records rs) ->
  (exists p h', gatherErrors flag rs h = (Normal p, h')) /\
  gatherErrors flag rs h = gatherErrors flag (filter Array_isArray rs) h.
Proof.
  intros Hg. split.
  - rewrite gatherErrors_run, (proj2 (has_key_groupable _) Hg). eauto.
  - apply gatherErrors_records. symmetry. apply all_records_arrays.
Qed.

(** Which elements have a key. *)
Lemma groupable_cases (e : value) :
  groupable e <->
  match e with
  | VUndefined | VNull => False
  | VObj own =>
      match assoc "field" own with
      | Some f => ToString f <> None
      | None => True
      end
  | _ => True
  end.
Proof.
  unfold groupable, record_key, ToPropertyKey.
  destruct e; simpl; try (split; [auto | discriminate]); try tauto.
  destruct (assoc "field" own); simpl; [tauto|].
  split; [auto | discriminate].
Qed.

(* ================================================================== *)
(** ** The order of the fields under the processor's dispatch *)

Lemma key_le_refl (a : string) : key_le a a.
Proof.
  unfold key_le. destruct (array_index a); [apply N.le_refl | exact I].
Qed.

Lemma StronglySorted_app {A : Type} (R : A -> A -> Prop) (a b : list A) :
  StronglySorted R a ->
  StronglySorted R b ->
  (forall x y, In x a -> In y b -> R x y) ->
  StronglySorted R (a ++ b).
Proof.
  induction 1 as [|x a Ha IH Hx]; intros Hb Hab; simpl; [exact Hb|].
  constructor.
  - apply IH; [exact Hb|]. intros u v Hu Hv. apply Hab; [now right | exact Hv].
  - apply Forall_app. split; [exact Hx|].
    apply Forall_forall. intros y Hy. apply Hab; [now left | exact Hy].
Qed.

Lemma StronglySorted_filter {A : Type} (R : A -> A -> Prop) (f : A -> bool)
      (l : list A) :
  StronglySorted R l -> StronglySorted R (filter f l).
Proof.
  induction 1 as [|x l Hl IH Hx]; simpl; [constructor|].
  destruct (f x); [|exact IH].
  constructor; [exact IH|].
  rewrite Forall_forall in *. intros y Hy. apply Hx.
  apply filter_In in Hy. tauto.
Qed.

Lemma ascending_Forall (n : N) (l : list N) :
  ascending (n :: l) -> Forall (N.le n) l.
Proof.
  revert n. induction l as [|m l IH]; intros n H; [constructor|].
  inversion H as [| |? ? ? Hle Hl]; subst.
  constructor; [exact Hle|].
  eapply Forall_impl; [|apply (IH m Hl)].
  intros k Hk. simpl in Hk. lia.
Qed.

Lemma ascending_tail (n : N) (l : list N) : ascending (n :: l) -> ascending l.
Proof.
  intros H. inversion H; subst; [constructor | assumption].
Qed.

Lemma ascending_prepend (n : N) (l : list N) :
  Forall (N.le n) l -> ascending l -> ascending (n :: l).
Proof.
  intros Hn Hl. destruct l as [|m l]; [constructor|].
  constructor; [now inversion Hn | exact Hl].
Qed.

Lemma index_keys_sorted (l : list N) :
  ascending l ->
  Forall (fun n => array_index (string_of_N n) = Some n) l ->
  StronglySorted key_le (map string_of_N l).
Proof.
  induction l as [|n l IH]; intros Ha Hc; simpl; [constructor|].
  inversion Hc as [|? ? Hn Hl]; subst.
  constructor; [apply IH; [now apply ascending_tail in Ha | exact Hl]|].
  rewrite Forall_map.
  pose proof (ascending_Forall n l Ha) as Hle.
  rewrite Forall_forall in *. intros m Hm.
  unfold key_le. rewrite Hn, (Hl m Hm). now apply Hle.
Qed.

Lemma plain_keys_sorted (l : list string) :
  Forall (fun k => is_array_index k = false) l ->
  StronglySorted key_le l.
Proof.
  induction 1 as [|k l Hk Hl IH]; constructor; [exact IH|].
  eapply Forall_impl; [|exact Hl]. intros k' Hk'. simpl in Hk'.
  unfold key_le, is_array_index in *.
  destruct (array_index k); [discriminate|].
  now destruct (array_index k').
Qed.

Lemma not_index_Forall (ks : list string) :
  Forall (fun k => is_array_index k = false)
         (filter (fun k => negb (is_array_index k)) ks).
Proof.
  eapply Forall_impl; [|apply filter_Forall].
  intros k Hk. simpl in Hk. now destruct (is_array_index k).
Qed.

(** The keys come out of an enumeration in key order. *)
Lemma OrdinaryOwnPropertyKeys_sorted (ks : list string) :
  StronglySorted key_le (OrdinaryOwnPropertyKeys ks).
Proof.
  unfold OrdinaryOwnPropertyKeys. apply StronglySorted_app.
  - apply index_keys_sorted;
      [apply sort_indices_ascending | apply sorted_indices_canonical].
  - apply plain_keys_sorted, not_index_Forall.
  - intros x y Hx Hy. apply in_map_iff in Hx. destruct Hx as [n [<- Hn]].
    pose proof (sorted_indices_canonical ks) as Hc.
    rewrite Forall_forall in Hc. unfold key_le. rewrite (Hc n Hn).
    apply filter_In in Hy. destruct Hy as [_ Hy].
    unfold is_array_index in Hy.
    destruct (array_index y); [discriminate | exact I].
Qed.

(** A list of keys in key order is enumerated as it stands. *)
Lemma OrdinaryOwnPropertyKeys_of_sorted (ks : list string) :
  StronglySorted key_le ks -> OrdinaryOwnPropertyKeys ks = ks.
Proof.
  intros H.
  assert (P : ascending (filter_map array_index ks) /\
              filter is_array_index ks
              ++ filter (fun k => negb (is_array_index k)) ks = ks).
  { induction H as [|k ks Hks IH Hk]; [split; [constructor | reflexivity]|].
    destruct IH as [IHa IHf]. cbn [filter_map filter].
    destruct (array_index k) as [n|] eqn:E.
    - assert (Hidx : is_array_index k = true)
        by (unfold is_array_index; now rewrite E).
      rewrite Hidx. cbn [negb app]. split; [|now rewrite IHf].
      apply ascending_prepend; [|exact IHa].
      apply Forall_forall. intros m Hm.
      apply filter_map_In in Hm. destruct Hm as [k' [Hk' Em]].
      rewrite Forall_forall in Hk. specialize (Hk k' Hk').
      unfold key_le in Hk. now rewrite E, Em in Hk.
    - assert (Hidx : is_array_index k = false)
        by (unfold is_array_index; now rewrite E).
      rewrite Hidx. cbn [negb].
      assert (Hplain : Forall (fun k' => array_index k' = None) ks).
      { eapply Forall_impl; [|exact Hk]. intros k' Hk'. simpl in Hk'.
        unfold key_le in Hk'. rewrite E in Hk'.
        now destruct (array_index k'). }
      rewrite (filter_map_none _ _ Hplain). split; [constructor|].
      rewrite (filter_none is_array_index ks), filter_all; [reflexivity| |];
        (eapply Forall_impl; [|exact Hplain]); intros k' Hk'; simpl in Hk';
        unfold is_array_index; now rewrite Hk'. }
  destruct P as [Pa Pf]. unfold OrdinaryOwnPropertyKeys.
  now rewrite (sort_indices_fixed _ Pa), indices_as_keys.
Qed.

Lemma first_seen_sorted (ks : list string) :
  StronglySorted key_le ks -> StronglySorted key_le (first_seen ks).
Proof.
  induction 1 as [|k ks Hks IH Hk]; simpl; [constructor|].
  constructor; [now apply StronglySorted_filter|].
  rewrite Forall_forall in *. intros k' Hk'.
  apply filter_In in Hk'. destruct Hk' as [Hk' _].
  apply Hk. now apply first_seen_In.
Qed.

Lemma filter_map_app {A B : Type} (f : A -> option B) (a b : list A) :
  filter_map f (a ++ b) = filter_map f a ++ filter_map f b.
Proof.
  induction a as [|x a IH]; simpl; [reflexivity|].
  destruct (f x); simpl; now rewrite IH.
Qed.

Lemma own_field_keys (field : string) (es : list value) :
  Forall (fun e => field_of e field) es ->
  Forall groupable es /\
  Forall (fun k => k = field) (filter_map record_key es).
Proof.
  induction 1 as [|e es He _ [IHg IHk]]; [split; constructor|].
  assert (Hkey : record_key e = Some field).
  { unfold field_of in He. unfold record_key. now rewrite He. }
  split.
  - constructor; [unfold groupable; congruence | exact IHg].
  - simpl. rewrite Hkey. now constructor.
Qed.

Lemma same_key_sorted (f : string) (ks : list string) :
  Forall (fun k => k = f) ks -> StronglySorted key_le ks.
Proof.
  induction 1 as [|k ks Hk Hks IH]; constructor; [exact IH|].
  subst k. eapply Forall_impl; [|exact Hks].
  intros k' Hk'. simpl in Hk'. subst k'. apply key_le_refl.
Qed.

(** Units that report their own field, taken in the order of their fields:
    the keys of the records come in that order. *)
Lemma fields_in_dispatch_order (fields : list string) (rs : list value) :
  Forall2 reports_own_field fields rs ->
  StronglySorted key_le fields ->
  StronglySorted key_le (fields_of rs) /\
  Forall (fun k => In k fields) (fields_of rs) /\
  Forall groupable (all_records rs).
Proof.
  induction 1 as [|f r fields rs Hr _ IH]; intros Hs.
  - repeat split; constructor.
  - inversion Hs as [|? ? Hs' Hf]; subst.
    destruct (IH Hs') as [IHs [IHin IHg]].
    assert (Hown : Forall groupable (all_records [r]) /\
                   Forall (fun k => k = f) (fields_of [r])).
    { destruct Hr as [Hr|[es [-> Hes]]].
      - destruct r; try (split; constructor). discriminate.
      - unfold fields_of. cbn [all_records flat_map]. rewrite app_nil_r.
        now apply own_field_keys. }
    destruct Hown as [Hg Hk].
    assert (Erec : all_records (r :: rs) = all_records [r] ++ all_records rs).
    { cbn [all_records flat_map]. now rewrite app_nil_r. }
    assert (Ef : fields_of (r :: rs) = fields_of [r] ++ fields_of rs).
    { unfold fields_of. now rewrite Erec, filter_map_app. }
    rewrite Ef, Erec. split; [|split].
    + apply StronglySorted_app; [|exact IHs|].
      * now apply (same_key_sorted f).
      * intros x y Hx Hy. rewrite Forall_forall in Hk, IHin, Hf.
        rewrite (Hk x Hx). apply Hf. now apply IHin.
    + apply Forall_app. split.
      * eapply Forall_impl; [|exact Hk]. intros k ->. now left.
      * eapply Forall_impl; [|exact IHin]. intros k Hin. now right.
    + apply Forall_app. split; assumption.
Qed.

(** C6. When every unit reports Error Records of its own field only, the
    units being queued in the order [Object.keys] lists the fields of
    [fieldValidators], the mapping the processor rejects with lists its
    fields in the order in which each field's first record was met in that
    dispatch order, and its properties were created in that order; this
    holds whether [reduceErrors] is set or not. *)
Theorem mapping_order_is_first_error_order
        {validator : Type} queueValidator (p : option (params validator))
        (rs : list value) (h : heap) :
  validatorQueue queueValidator p = map Fulfilled rs ->
  Forall2 reports_own_field
          (OrdinaryOwnPropertyKeys (map fst (fieldValidators_of p))) rs ->
  all_records rs <> [] ->
  exists l ob,
    fst (processor queueValidator p h) = Rejected (RObject l) /\
    object_at (snd (processor queueValidator p h)) l = Some ob /\
    keys_at (snd (processor queueValidator p h)) l = first_seen (fields_of rs) /\
    map fst (props ob) = first_seen (fields_of rs).
Proof.
  intros Hq Hown Hne.
  destruct (fields_in_dispatch_order _ _ Hown
              (OrdinaryOwnPropertyKeys_sorted _)) as [Hs [_ Hg]].
  pose proof (OrdinaryOwnPropertyKeys_of_sorted _ (first_seen_sorted _ Hs)) as Hfix.
  assert (Hrs : rs <> []) by (intros ->; now apply Hne).
  rewrite (processor_awaits _ _ _ _ Hq Hrs). unfold then_.
  rewrite (gatherErrors_rejects _ _ _ Hg Hne). cbn [fst snd].
  exists (final_loc (flag_of p) h),
    (mkObject None (as_props (final_groups (flag_of p) rs))).
  split; [reflexivity|]. split; [apply object_at_final|]. split.
  - now rewrite keys_at_final, (grouping_keys_fields rs Hg).
  - cbn [props]. rewrite map_fst_as_props. unfold final_groups.
    destruct (flag_of p).
    + now rewrite map_fst_reduce_groups, (grouping_keys_fields rs Hg).
    + apply (grouping_keys_fields rs Hg).
Qed.

(* ================================================================== *)
(** ** Concrete runs *)

(** Scenario A: no field validators. *)
Example scenario_A :
  processor settled_unit (page [] None) [] = (Promise_resolve, []).
Proof. reflexivity. Qed.

(** Scenario B: one field, no errors. *)
Example scenario_B :
  fst (processor settled_unit (page [("name", VUndefined)] None) [])
  = Promise_resolve.
Proof. reflexivity. Qed.

(** Scenario C: two fields, the first one in error. *)
Example scenario_C :
  processor settled_unit
    (page [("name", VArr [record "name" "required"]); ("age", VUndefined)] None)
    []
  = (Rejected (RObject 0),
     [mkObject None [("name", SArr [record "name" "required"])]]).
Proof. reflexivity. Qed.

(** Scenario D: two errors for one field, reduced to the first. *)
Example scenario_D :
  let p := page [("age", VArr [record "age" "required"; record "age" "numeric"])]
                (Some true) in
  fst (processor settled_unit p []) = Rejected (RObject 1) /\
  object_at (snd (processor settled_unit p [])) 1
  = Some (mkObject None [("age", SArr [record "age" "required"])]).
Proof. split; reflexivity. Qed.

(** Scenario E: two fields, one error each, not reduced. *)
Example scenario_E :
  processor settled_unit
    (page [("name", VArr [record "name" "required"]);
           ("age", VArr [record "age" "numeric"])] (Some false))
    []
  = (Rejected (RObject 0),
     [mkObject None [("name", SArr [record "name" "required"]);
                     ("age", SArr [record "age" "numeric"])]]).
Proof. reflexivity. Qed.

(** Had the accumulator inherited from [Object.prototype], the look-up of
    [toString] would have found the inherited method, and the push would
    have thrown. *)
Example inherited_property_is_found :
  let h := [Object_prototype; mkObject (Some 0) []] in
  fst (Get 1 "toString" h) = Normal (Some (SBuiltin "toString")) /\
  fst (push 1 "toString" (record "toString" "required") h) = Throw TypeError /\
  fst (Get 1 "toString" [Object_prototype; mkObject None []]) = Normal None.
Proof. repeat split; reflexivity. Qed.


Lemma empty_fieldValidators_resolve_witness :
  (fieldValidators_of (validator := value) None = [] /\
   validatorQueue settled_unit None = [] /\
   processor settled_unit None [] = (Promise_resolve, []))
  /\
  (let p := Some (mkParams (VStr "page") None None (Some true)) in
   fieldValidators_of p = [] /\
   validatorQueue settled_unit p = [] /\
   processor settled_unit p [] = (Promise_resolve, []))
  /\
  (let p := page [] None in
   fieldValidators_of p = [] /\
   validatorQueue settled_unit p = [] /\
   processor settled_unit p [] = (Promise_resolve, [])).
Proof.
  split; [|split]; cbv zeta; (split; [reflexivity|]).
  - exact (empty_fieldValidators_resolve settled_unit None [] eq_refl).
  - exact (empty_fieldValidators_resolve settled_unit
             (Some (mkParams (VStr "page") None None (Some true))) [] eq_refl).
  - exact (empty_fieldValidators_resolve settled_unit (page [] None) [] eq_refl).
Defined.

Lemma classification_ignores_order_witness :
  let p1 := page [("name", VArr [record "name" "required"]); ("age", VUndefined)]
                 None in
  let p2 := page [("age", VUndefined); ("name", VArr [record "name" "required"])]
                 (Some true) in
  Permutation (validatorQueue settled_unit p1) (validatorQueue settled_unit p2) /\
  is_fulfilled (fst (processor settled_unit p1 [])) =
  is_fulfilled (fst (processor settled_unit p2 [Object_prototype])).
Proof.
  intros p1 p2.
  assert (HP : Permutation (validatorQueue settled_unit p1)
                           (validatorQueue settled_unit p2)).
  { apply perm_swap. }
  split; [exact HP|].
  exact (proj1 (classification_ignores_order settled_unit settled_unit p1 p2
                  [] [Object_prototype]) HP).
Defined.

Lemma reduction_keeps_first_record_witness :
  let rs := [VArr [record "age" "required"; record "age" "numeric"];
             VUndefined;
             VArr [record "name" "required"]] in
  Forall groupable (all_records rs) /\
  all_records rs <> [] /\
  exists l h',
    gatherErrors true rs [] = (Normal (Rejected (RObject l)), h') /\
    (forall k, In k (keys_at h' l) <-> In k (fields_of rs)) /\
    (forall k,
        In k (fields_of rs) ->
        exists e,
          own_at h' l k = Some (SArr [e]) /\
          find (key_is k) (all_records rs) = Some e) /\
    (forall k, ~ In k (fields_of rs) -> own_at h' l k = None).
Proof.
  intros rs.
  assert (Hg : Forall groupable (all_records rs)) by keyed.
  assert (Hne : all_records rs <> []) by discriminate.
  split; [exact Hg|]. split; [exact Hne|].
  exact (reduction_keeps_first_record rs [] Hg Hne).
Defined.

Lemma mapping_has_no_empty_entry_witness :
  let rs := [VArr [record "age" "required"; record "age" "numeric"];
             VNum 0;
             VArr [];
             VArr [record "name" "required"]] in
  Forall groupable (all_records rs) /\
  exists l h',
    groupErrors true rs [] = (Normal l, h') /\
    (forall k, In k (keys_at h' l) <-> records_for k rs <> []) /\
    (forall k, In k (keys_at h' l) <-> own_at h' l k <> None) /\
    (forall k s, own_at h' l k = Some s -> exists e es, s = SArr (e :: es)).
Proof.
  intros rs.
  assert (Hg : Forall groupable (all_records rs)) by keyed.
  split; [exact Hg|].
  exact (mapping_has_no_empty_entry true rs [] Hg).
Defined.

(** [gatherErrors] on its own, given a unit that reports field [b] before
    a unit that reports field [1]: the mapping lists [1] before [b].  The
    processor does not dispatch in that order. *)
Example index_fields_are_listed_first :
  let rs := [VArr [record "b" "required"]; VArr [record "1" "required"]] in
  first_seen (fields_of rs) = ["b"; "1"] /\
  gatherErrors false rs [] =
    (Normal (Rejected (RObject 0)),
     [mkObject None [("b", SArr [record "b" "required"]);
                     ("1", SArr [record "1" "required"])]]) /\
  keys_at (snd (gatherErrors false rs [])) 0 = ["1"; "b"] /\
  fst (gatherErrors true rs []) = Normal (Rejected (RObject 1)) /\
  object_at (snd (gatherErrors true rs [])) 1 =
    Some (mkObject None [("1", SArr [record "1" "required"]);
                         ("b", SArr [record "b" "required"])]) /\
  keys_at (snd (gatherErrors true rs [])) 1 = ["1"; "b"] /\
  keys_at (snd (gatherErrors false rs [])) 0 <> first_seen (fields_of rs) /\
  keys_at (snd (gatherErrors true rs [])) 1 <> first_seen (fields_of rs).
Proof.
  repeat split; try reflexivity; vm_compute; discriminate.
Qed.

Lemma mapping_order_is_first_error_order_witness :
  let fv := [("b", VArr [record "b" "required"; record "b" "numeric"]);
             ("a", VNum 0);
             ("1", VArr [record "1" "required"]);
             ("c", VArr [record "c" "required"])] in
  let rs := [VArr [record "1" "required"];
             VArr [record "b" "required"; record "b" "numeric"];
             VNum 0;
             VArr [record "c" "required"]] in
  let p := page fv (Some true) in
  validatorQueue settled_unit p = map Fulfilled rs /\
  Forall2 reports_own_field
          (OrdinaryOwnPropertyKeys (map fst (fieldValidators_of p))) rs /\
  all_records rs <> [] /\
  first_seen (fields_of rs) = ["1"; "b"; "c"] /\
  exists l ob,
    fst (processor settled_unit p []) = Rejected (RObject l) /\
    object_at (snd (processor settled_unit p [])) l = Some ob /\
    keys_at (snd (processor settled_unit p [])) l = first_seen (fields_of rs) /\
    map fst (props ob) = first_seen (fields_of rs).
Proof.
  intros fv rs p.
  assert (Hown : Forall2 reports_own_field
                   (OrdinaryOwnPropertyKeys (map fst (fieldValidators_of p))) rs).
  { change (OrdinaryOwnPropertyKeys (map fst (fieldValidators_of p)))
      with ["1"; "b"; "a"; "c"].
    constructor; [right; eexists; split; [reflexivity | repeat constructor]|].
    constructor; [right; eexists; split; [reflexivity | repeat constructor]|].
    constructor; [left; reflexivity|].
    constructor; [right; eexists; split; [reflexivity | repeat constructor]|].
    constructor. }
  assert (Hne : all_records rs <> []) by discriminate.
  split; [reflexivity|]. split; [exact Hown|]. split; [exact Hne|].
  split; [reflexivity|].
  exact (mapping_order_is_first_error_order settled_unit p rs [] eq_refl Hown Hne).
Defined.

Lemma inherited_names_are_ordinary_fields_witness :
  let rs := [VArr [record "toString" "required"; record "constructor" "required"];
             VArr [record "toString" "numeric"]] in
  let h := [Object_prototype] in
  In "toString" (map fst (props Object_prototype)) /\
  Forall groupable (all_records rs) /\
  In "toString" (fields_of rs) /\
  fst (Get (List.length h) "toString" (h ++ [mkObject None []])) = Normal None /\
  exists l h' e es,
    gatherErrors false rs h = (Normal (Rejected (RObject l)), h') /\
    records_for "toString" rs = e :: es /\
    object_at h' l =
      Some (mkObject None (as_props (final_groups false rs))) /\
    own_at h' l "toString" = Some (SArr (e :: es)) /\
    (forall l', l' < List.length h -> object_at h' l' = object_at h l').
Proof.
  intros rs h.
  assert (Hg : Forall groupable (all_records rs)) by keyed.
  assert (Hk : In "toString" (fields_of rs)) by (left; reflexivity).
  split; [do 8 right; left; reflexivity|].
  split; [exact Hg|]. split; [exact Hk|].
  exact (inherited_names_are_ordinary_fields false rs h "toString" Hg Hk).
Defined.

Lemma reduceGroupedErrors_keeps_heads_witness :
  let g := [("b", [record "b" "required"; record "b" "numeric"]);
            ("1", [record "1" "required"])] in
  let ob := mkObject None (as_props g) in
  let h := [Object_prototype; ob] in
  object_at h 1 = Some ob /\
  props ob = as_props g /\
  NoDup (map fst g) /\
  Forall (fun p => snd p <> []) g /\
  exists h',
    reduceGroupedErrors 1 h = (Normal (List.length h), h') /\
    keys_at h' (List.length h) = keys_at h 1 /\
    (forall k es, assoc k g = Some es ->
       exists x, hd_error es = Some x /\
                 own_at h' (List.length h) k = Some (SArr [x])) /\
    (forall k, assoc k g = None -> own_at h' (List.length h) k = None) /\
    (forall l, l < List.length h -> object_at h' l = object_at h l).
Proof.
  intros g ob h.
  assert (Hnd : NoDup (map fst g)).
  { repeat constructor; simpl; intuition discriminate. }
  assert (Hne : Forall (fun p => snd p <> []) g).
  { repeat constructor; discriminate. }
  split; [reflexivity|]. split; [reflexivity|].
  split; [exact Hnd|]. split; [exact Hne|].
  exact (reduceGroupedErrors_keeps_heads h 1 ob g eq_refl eq_refl Hnd Hne).
Defined.

(** Against C3 as stated: a record without a [field] is not dropped.  On
    its own it makes the outcome a rejection, and the mapping holds it
    under the key [undefined]. *)
Lemma fieldless_record_is_not_dropped :
  let e := VObj [("type", VStr "required")] in
  fieldless e /\
  gatherErrors false [VArr [e]] [] =
    (Normal (Rejected (RObject 0)),
     [mkObject None [("undefined", SArr [e])]]) /\
  gatherErrors false [VArr []] [] =
    (Normal Promise_resolve, [mkObject None []]) /\
  fst (gatherErrors false [VArr [e]] []) <> Normal Promise_resolve.
Proof.
  repeat split; try reflexivity.
  - exists [("type", VStr "required")]. split; reflexivity.
  - vm_compute. discriminate.
Qed.

Lemma fieldless_records_are_grouped_witness :
  let e := VObj [("type", VStr "required")] in
  let rs := [VStr "oops"; VArr [record "name" "required"; e]; VNull] in
  Forall (fun r => Array_isArray r = false \/
                   exists es, r = VArr es /\
                              Forall (fun e => ErrorRecord e \/ fieldless e) es)
         rs /\
  In (VArr [record "name" "required"; e]) rs /\
  In e [record "name" "required"; e] /\
  fieldless e /\
  (exists p h', gatherErrors false rs [] = (Normal p, h')) /\
  gatherErrors false rs [] = gatherErrors false (filter Array_isArray rs) [] /\
  exists l h' x xs,
    gatherErrors false rs [] = (Normal (Rejected (RObject l)), h') /\
    In "undefined" (keys_at h' l) /\
    records_for "undefined" rs = x :: xs /\
    In e (x :: xs) /\
    own_at h' l "undefined" = Some (SArr (x :: xs)).
Proof.
  intros e rs.
  assert (Hf : fieldless e).
  { exists [("type", VStr "required")]. split; reflexivity. }
  assert (Hrs : Forall (fun r => Array_isArray r = false \/
                   exists es, r = VArr es /\
                              Forall (fun e => ErrorRecord e \/ fieldless e) es)
                  rs).
  { constructor; [left; reflexivity|].
    constructor; [|constructor; [left; reflexivity | constructor]].
    right. exists [record "name" "required"; e]. split; [reflexivity|].
    constructor; [|constructor; [right; exact Hf | constructor]].
    left. exists [("field", VStr "name"); ("type", VStr "required")], "name".
    split; reflexivity. }
  assert (H1 : In (VArr [record "name" "required"; e]) rs)
    by (right; left; reflexivity).
  assert (H2 : In e [record "name" "required"; e]) by (right; left; reflexivity).
  split; [exact Hrs|]. split; [exact H1|]. split; [exact H2|]. split; [exact Hf|].
  destruct (fieldless_records_are_grouped false rs [] Hrs) as [Hn [Hfilter Hgrp]].
  split; [exact Hn|]. split; [exact Hfilter|].
  exact (Hgrp _ e H1 H2 Hf).
Defined.

(** Against C4 as stated: a list result that holds [null] makes
    [gatherErrors] throw, and the processor's promise is rejected with the
    TypeError. *)
Lemma null_element_throws :
  fst (gatherErrors false [VArr [VNull]] []) = Throw TypeError /\
  fst (gatherErrors true [VArr [record "name" "required"; VUndefined]] [])
  = Throw TypeError /\
  fst (processor settled_unit (page [("name", VArr [VNull])] None) [])
  = Rejected (RError TypeError).
Proof.
  repeat split; reflexivity.
Qed.

Lemma gatherErrors_returns_on_keyed_records_witness :
  let rs := [VObj [("field", VStr "name")]; VNum 0; VBool false; VStr "";
             VNull; VUndefined;
             VArr [record "name" "required"; VNum 7; VStr "x"; VArr [VNull];
                   VObj [("field", VArr [VNum 1; VNull; VStr "a"])]]] in
  Forall groupable (all_records rs) /\
  (exists p h', gatherErrors true rs [] = (Normal p, h')) /\
  gatherErrors true rs [] = gatherErrors true (filter Array_isArray rs) [].
Proof.
  intros rs.
  assert (Hg : Forall groupable (all_records rs)) by keyed.
  split; [exact Hg|].
  exact (gatherErrors_returns_on_keyed_records true rs [] Hg).
Defined.

(* ================================================================== *)
(** ** Further properties of the processor *)

Lemma Promise_all_some_rejection (q : list promise) :
  Exists (fun u => is_fulfilled u = false) q ->
  exists x, In (Rejected x) q /\ Promise_all q = inr x.
Proof.
  induction q as [|[v|y] q IH]; intros H.
  - inversion H.
  - inversion H as [? ? Hu|? ? Hq]; subst; [discriminate|].
    destruct (IH Hq) as [x [Hin Hall]]. exists x. split; [now right|].
    simpl. now rewrite Hall.
  - exists y. split; [now left | reflexivity].
Qed.

(** X2. When some unit of the queue is rejected, the processor is rejected
    with the reason of a rejected unit: [gatherErrors] is not run, no
    mapping is built (the store is as it was), and what the fulfilled units
    reported is not part of the outcome. *)
Theorem rejected_unit_bypasses_aggregation
        {validator : Type} queueValidator (p : option (params validator))
        (h : heap) :
  Exists (fun u => is_fulfilled u = false) (validatorQueue queueValidator p) ->
  exists x,
    In (Rejected x) (validatorQueue queueValidator p) /\
    processor queueValidator p h = (Rejected x, h).
Proof.
  intros Hex. destruct (Promise_all_some_rejection _ Hex) as [x [Hin Hall]].
  exists x. split; [exact Hin|].
  unfold processor. rewrite Hall.
  destruct (validatorQueue queueValidator p); [contradiction | reflexivity].
Qed.

Lemma rejected_unit_bypasses_aggregation_witness :
  let p := Some (mkParams (VStr "page")
                   (Some [("name", Fulfilled (VArr [record "name" "required"]));
                          ("age", Rejected (RValue (VStr "boom")));
                          ("city", Fulfilled VUndefined)])
                   None (Some true)) in
  Exists (fun u => is_fulfilled u = false) (validatorQueue queued_unit p) /\
  exists x,
    In (Rejected x) (validatorQueue queued_unit p) /\
    processor queued_unit p [Object_prototype] = (Rejected x, [Object_prototype]).
Proof.
  intros p.
  assert (Hex : Exists (fun u => is_fulfilled u = false)
                       (validatorQueue queued_unit p)).
  { right. left. reflexivity. }
  split; [exact Hex|].
  exact (rejected_unit_bypasses_aggregation queued_unit p [Object_prototype] Hex).
Defined.

Lemma records_total_app (g1 g2 : groups) :
  records_total (g1 ++ g2) = records_total g1 + records_total g2.
Proof.
  unfold records_total. now rewrite map_app, list_sum_app.
Qed.

Lemma records_total_set_group (k : string) (e : value) (g : groups)
      (es : list value) :
  assoc k g = Some es ->
  records_total (set_group k (es ++ [e]) g) = S (records_total g).
Proof.
  induction g as [|[k' es'] g IH]; simpl; [discriminate|].
  destruct (String.eqb k' k).
  - intros H. injection H as ->. unfold records_total. simpl.
    rewrite length_app. simpl. lia.
  - intros H. unfold records_total in *. simpl. rewrite (IH H). lia.
Qed.

Lemma records_total_add_record (k : string) (e : value) (g : groups) :
  records_total (add_record k e g) = S (records_total g).
Proof.
  unfold add_record. destruct (assoc k g) as [es|] eqn:Ha.
  - now apply records_total_set_group.
  - rewrite records_total_app. unfold records_total at 2. simpl. lia.
Qed.

Lemma records_total_group_records (es : list value) (g : groups) :
  Forall groupable es ->
  records_total (snd (group_records g es)) = records_total g + List.length es.
Proof.
  intros H. revert g. induction H as [|e es He _ IH]; intros g; simpl.
  - lia.
  - unfold groupable in He. destruct (record_key e) as [k|]; [|congruence].
    rewrite IH, records_total_add_record. lia.
Qed.

Lemma mapping_size_as_props (p : option loc) (g : groups) :
  mapping_size (mkObject p (as_props g)) = records_total g.
Proof.
  unfold mapping_size, records_total, as_props. cbn [props].
  now rewrite map_map.
Qed.

(** X3. Without reduction no record is lost, repeated or reordered within
    its field: every listed field holds exactly the records of that field,
    in dispatch order, and the mapping holds as many records as the unit
    results did. *)
Theorem grouping_keeps_every_record (rs : list value) (h : heap) :
  Forall groupable (all_records rs) ->
  exists l h' ob,
    groupErrors false rs h = (Normal l, h') /\
    object_at h' l = Some ob /\
    (forall k, In k (keys_at h' l) ->
               own_at h' l k = Some (SArr (records_for k rs))) /\
    (forall e, In e (all_records rs) ->
               exists k, In k (keys_at h' l) /\ In e (records_for k rs)) /\
    mapping_size ob = List.length (all_records rs).
Proof.
  intros Hg.
  exists (final_loc false h), (h ++ created false rs),
    (mkObject None (as_props (final_groups false rs))).
  split; [|split; [|split; [|split]]].
  - rewrite groupErrors_run. now rewrite (proj2 (has_key_groupable _) Hg).
  - apply object_at_final.
  - intros k Hk. rewrite (final_keys_In _ _ _ _ Hg) in Hk.
    apply records_for_nonempty in Hk.
    rewrite own_at_final, (final_groups_assoc false rs k Hg).
    destruct (records_for k rs); [congruence | reflexivity].
  - intros e He. rewrite Forall_forall in Hg.
    pose proof (Hg e He) as Hk. unfold groupable in Hk.
    destruct (record_key e) as [k|] eqn:E; [|congruence].
    exists k. split.
    + apply final_keys_In; [now apply Forall_forall|].
      apply fields_of_In. eauto.
    + unfold records_for. apply filter_In. split; [exact He|].
      unfold key_is. rewrite E. apply String.eqb_refl.
  - rewrite mapping_size_as_props. unfold final_groups, grouping.
    now rewrite (records_total_group_records _ [] Hg).
Qed.

Lemma grouping_keeps_every_record_witness :
  let rs := [VArr [record "age" "required"; record "name" "required"];
             VNull;
             VArr [record "age" "numeric"; VObj []]] in
  Forall groupable (all_records rs) /\
  exists l h' ob,
    groupErrors false rs [] = (Normal l, h') /\
    object_at h' l = Some ob /\
    (forall k, In k (keys_at h' l) ->
               own_at h' l k = Some (SArr (records_for k rs))) /\
    (forall e, In e (all_records rs) ->
               exists k, In k (keys_at h' l) /\ In e (records_for k rs)) /\
    mapping_size ob = List.length (all_records rs).
Proof.
  intros rs.
  assert (Hg : Forall groupable (all_records rs)) by keyed.
  split; [exact Hg|].
  exact (grouping_keeps_every_record rs [] Hg).
Defined.

Lemma reduce_groups_NoDup (g : groups) :
  NoDup (map fst g) -> NoDup (map fst (reduce_groups g)).
Proof.
  intros H. rewrite map_fst_reduce_groups.
  now apply OrdinaryOwnPropertyKeys_NoDup.
Qed.

Lemma reduce_groups_idempotent (g : groups) :
  reduce_groups (reduce_groups g) = reduce_groups g.
Proof.
  unfold reduce_groups at 1.
  rewrite map_fst_reduce_groups, OrdinaryOwnPropertyKeys_idempotent.
  unfold reduce_groups. apply map_ext_in. intros k Hk.
  fold (reduce_groups g). rewrite assoc_reduce_groups.
  apply OrdinaryOwnPropertyKeys_In, assoc_In_fst in Hk.
  destruct (assoc k g); [reflexivity | congruence].
Qed.

(** X4. Reducing a reduced mapping changes nothing: a second call of
    [reduceGroupedErrors], on the object the first one returned, returns
    another new object with the same properties, in the same order. *)
Theorem reduceGroupedErrors_twice
        (h : heap) (errors : loc) (ob : object) (g : groups) :
  object_at h errors = Some ob ->
  props ob = as_props g ->
  NoDup (map fst g) ->
  exists r1 h1 r2 h2 ob1 ob2,
    reduceGroupedErrors errors h = (Normal r1, h1) /\
    reduceGroupedErrors r1 h1 = (Normal r2, h2) /\
    r1 <> r2 /\
    object_at h2 r1 = Some ob1 /\
    object_at h2 r2 = Some ob2 /\
    props ob2 = props ob1.
Proof.
  intros Hob Hg Hnd. unfold object_at in Hob.
  pose (o1 := mkObject None (as_props (reduce_groups g))).
  exists (List.length h), (h ++ [o1]), (List.length (h ++ [o1])),
    ((h ++ [o1]) ++ [o1]), o1, o1.
  split; [exact (reduceGroupedErrors_run h errors ob g Hob Hg Hnd)|].
  split.
  - rewrite (reduceGroupedErrors_run (h ++ [o1]) (List.length h) o1
               (reduce_groups g) (nth_error_last h o1) eq_refl
               (reduce_groups_NoDup g Hnd)).
    now rewrite reduce_groups_idempotent.
  - split; [rewrite length_app; simpl; lia|].
    split; [|split; [|reflexivity]]; unfold object_at.
    + rewrite nth_error_app1 by (rewrite length_app; simpl; lia).
      apply nth_error_last.
    + apply nth_error_last.
Qed.

Lemma reduceGroupedErrors_twice_witness :
  let g := [("b", [record "b" "required"; record "b" "numeric"]);
            ("1", [record "1" "required"]);
            ("c", [])] in
  let ob := mkObject None (as_props g) in
  object_at [ob] 0 = Some ob /\
  props ob = as_props g /\
  NoDup (map fst g) /\
  exists r1 h1 r2 h2 ob1 ob2,
    reduceGroupedErrors 0 [ob] = (Normal r1, h1) /\
    reduceGroupedErrors r1 h1 = (Normal r2, h2) /\
    r1 <> r2 /\
    object_at h2 r1 = Some ob1 /\
    object_at h2 r2 = Some ob2 /\
    props ob2 = props ob1.
Proof.
  intros g ob.
  assert (Hnd : NoDup (map fst g)).
  { repeat constructor; simpl; intuition discriminate. }
  split; [reflexivity|]. split; [reflexivity|]. split; [exact Hnd|].
  exact (reduceGroupedErrors_twice [ob] 0 ob g eq_refl eq_refl Hnd).
Defined.

(** X5. [gatherErrors] only adds to the store, whatever its input and also
    when it throws: the objects that were there are kept as they were, the
    objects it creates and its completion are those of a call in an empty
    store (the payload named relative to the end of the old store), and it
    creates one object, or two when it reduces. *)
Theorem gatherErrors_only_allocates (flag : bool) (rs : list value) (h : heap) :
  gatherErrors flag rs h =
    (relocate (List.length h) (fst (gatherErrors flag rs [])),
     h ++ snd (gatherErrors flag rs []))
  /\ List.length (snd (gatherErrors flag rs [])) =
     (if (flag && forallb has_key (all_records rs))%bool then 2 else 1).
Proof.
  rewrite !gatherErrors_run.
  destruct (forallb has_key (all_records rs)); cbn [fst snd app].
  - split.
    + destruct (Nat.eqb (List.length (grouping rs)) 0); cbn [relocate];
        [reflexivity|].
      unfold Promise_reject, final_loc. destruct flag; simpl;
        repeat f_equal; lia.
    + unfold created. now destruct flag.
  - split; [reflexivity|]. now rewrite andb_false_r.
Qed.

(** X6. The processor is rejected with a TypeError exactly when all units
    are fulfilled and some list result holds an element whose key cannot be
    evaluated ([null], [undefined], or an object whose [field] does not
    convert to a property key). *)
Theorem processor_TypeError_iff
        {validator : Type} queueValidator (p : option (params validator))
        (rs : list value) (h : heap) :
  validatorQueue queueValidator p = map Fulfilled rs ->
  fst (processor queueValidator p h) = Rejected (RError TypeError) <->
  exists e, In e (all_records rs) /\ record_key e = None.
Proof.
  intros Hq.
  assert (Hall : forallb has_key (all_records rs) = false <->
                 exists e, In e (all_records rs) /\ record_key e = None).
  { split.
    - intros H. destruct (forallb has_key (all_records rs)) eqn:E;
        [discriminate|].
      clear H. induction (all_records rs) as [|e es IH]; [discriminate|].
      simpl in E. unfold has_key at 1 in E.
      destruct (record_key e) eqn:Ek.
      + destruct (IH E) as [e' [He' Hk']]. exists e'. split; [now right | exact Hk'].
      + exists e. split; [now left | exact Ek].
    - intros [e [He Hk]].
      destruct (forallb has_key (all_records rs)) eqn:E; [|reflexivity].
      rewrite forallb_forall in E. specialize (E e He).
      unfold has_key in E. rewrite Hk in E. discriminate. }
  destruct rs as [|r rs].
  - unfold processor. rewrite Hq. simpl. split; [discriminate|].
    intros [e [[] _]].
  - rewrite (processor_awaits _ _ _ _ Hq) by discriminate.
    unfold then_. rewrite gatherErrors_run. rewrite <- Hall.
    destruct (forallb has_key (all_records (r :: rs))); cbn [fst].
    + destruct (Nat.eqb (List.length (grouping (r :: rs))) 0);
        split; discriminate.
    + split; reflexivity.
Qed.

Lemma processor_TypeError_iff_witness :
  let rs := [VArr [record "name" "required"];
             VArr [VObj [("field", VObj [("toString", VNum 1)])]]] in
  let p := page [("name", VArr [record "name" "required"]);
                 ("age", VArr [VObj [("field", VObj [("toString", VNum 1)])]])]
                None in
  validatorQueue settled_unit p = map Fulfilled rs /\
  (exists e, In e (all_records rs) /\ record_key e = None) /\
  fst (processor settled_unit p []) = Rejected (RError TypeError).
Proof.
  intros rs p.
  assert (He : exists e, In e (all_records rs) /\ record_key e = None).
  { exists (VObj [("field", VObj [("toString", VNum 1)])]).
    split; [right; left; reflexivity | reflexivity]. }
  split; [reflexivity|]. split; [exact He|].
  exact (proj2 (processor_TypeError_iff settled_unit p rs [] eq_refl) He).
Defined.

(** X7. How the records are spread over the units does not matter to
    [gatherErrors]: it returns, and leaves in the store, what it does for a
    single unit that reports all the records in one list. *)
Theorem gatherErrors_sees_one_list (flag : bool) (rs : list value) (h : heap) :
  gatherErrors flag rs h = gatherErrors flag [VArr (all_records rs)] h.
Proof.
  apply gatherErrors_records. simpl. now rewrite app_nil_r.
Qed.

(** X8. [reduceGroupedErrors] takes any mapping of lists, empty lists
    included: every property of the object it returns holds a list of
    exactly one element, the first element of the input's list, and for an
    empty list that element is [undefined]. *)
Theorem reduceGroupedErrors_singletons
        (h : heap) (errors : loc) (ob : object) (g : groups) :
  object_at h errors = Some ob ->
  props ob = as_props g ->
  NoDup (map fst g) ->
  exists h',
    reduceGroupedErrors errors h = (Normal (List.length h), h') /\
    (forall k s, own_at h' (List.length h) k = Some s ->
                 exists es, assoc k g = Some es /\
                            s = SArr [nth 0 es VUndefined]) /\
    (forall k es, assoc k g = Some es ->
                  own_at h' (List.length h) k = Some (SArr [nth 0 es VUndefined])) /\
    (forall k, assoc k g = Some [] ->
               own_at h' (List.length h) k = Some (SArr [VUndefined])).
Proof.
  intros Hob Hg Hnd. unfold object_at in Hob.
  exists (h ++ [mkObject None (as_props (reduce_groups g))]).
  split; [exact (reduceGroupedErrors_run h errors ob g Hob Hg Hnd)|].
  assert (Hown : forall k, own_at (h ++ [mkObject None (as_props (reduce_groups g))])
                             (List.length h) k
                           = match assoc k g with
                             | Some es => Some (SArr [nth 0 es VUndefined])
                             | None => None
                             end).
  { intros k. unfold own_at, object_at. rewrite nth_error_last. cbn [props].
    rewrite assoc_as_props, assoc_reduce_groups. now destruct (assoc k g). }
  split; [|split].
  - intros k s. rewrite Hown. destruct (assoc k g) as [es|]; [|discriminate].
    intros H. injection H as <-. eauto.
  - intros k es Hk. now rewrite Hown, Hk.
  - intros k Hk. now rewrite Hown, Hk.
Qed.

Lemma reduceGroupedErrors_singletons_witness :
  let g := [("b", [record "b" "required"; record "b" "numeric"]);
            ("c", [])] in
  let ob := mkObject None (as_props g) in
  object_at [ob] 0 = Some ob /\
  props ob = as_props g /\
  NoDup (map fst g) /\
  assoc "c" g = Some [] /\
  exists h',
    reduceGroupedErrors 0 [ob] = (Normal 1, h') /\
    own_at h' 1 "b" = Some (SArr [record "b" "required"]) /\
    own_at h' 1 "c" = Some (SArr [VUndefined]).
Proof.
  intros g ob.
  assert (Hnd : NoDup (map fst g)).
  { repeat constructor; simpl; intuition discriminate. }
  split; [reflexivity|]. split; [reflexivity|]. split; [exact Hnd|].
  split; [reflexivity|].
  destruct (reduceGroupedErrors_singletons [ob] 0 ob g eq_refl eq_refl Hnd)
    as [h' [Hrun [_ [Hall Hempty]]]].
  exists h'. split; [exact Hrun|]. split.
  - exact (Hall "b" _ eq_refl).
  - exact (Hempty "c" eq_refl).
Defined.

(** X9. When [gatherErrors] returns, its promise is fulfilled with
    [undefined], or rejected with the mapping; and a rejection payload is
    never an empty mapping: it is an object without prototype that lists at
    least one field, some list result having held a record. *)
Theorem rejection_payload_lists_a_field
        (flag : bool) (rs : list value) (h : heap) (p : promise) (h' : heap) :
  gatherErrors flag rs h = (Normal p, h') ->
  p = Fulfilled VUndefined \/
  (exists l ob,
      p = Rejected (RObject l) /\
      object_at h' l = Some ob /\
      proto ob = None /\
      keys_at h' l <> [] /\
      all_records rs <> []).
Proof.
  rewrite gatherErrors_run.
  destruct (forallb has_key (all_records rs)) eqn:Hk; [|discriminate].
  apply has_key_groupable in Hk.
  pose proof (grouping_empty rs Hk) as He.
  intros H. injection H as <- <-.
  destruct (all_records rs) as [|e es] eqn:Hrec.
  - left. rewrite He. reflexivity.
  - right. rewrite He.
    exists (final_loc flag h), (mkObject None (as_props (final_groups flag rs))).
    split; [reflexivity|]. split; [apply object_at_final|].
    split; [reflexivity|]. split; [|discriminate].
    rewrite keys_at_final. intros E.
    apply (f_equal (@List.length string)) in E.
    rewrite (Permutation_length (OrdinaryOwnPropertyKeys_perm _)),
      length_map in E.
    simpl in E. rewrite E in He. discriminate.
Qed.

Lemma rejection_payload_lists_a_field_witness :
  let rs := [VUndefined; VArr [record "name" "required"]] in
  let h' := [mkObject None [("name", SArr [record "name" "required"])];
             mkObject None [("name", SArr [record "name" "required"])]] in
  gatherErrors true rs [] = (Normal (Rejected (RObject 1)), h') /\
  (Rejected (RObject 1) = Fulfilled VUndefined \/
   (exists l ob,
       Rejected (RObject 1) = Rejected (RObject l) /\
       object_at h' l = Some ob /\
       proto ob = None /\
       keys_at h' l <> [] /\
       all_records rs <> [])).
Proof.
  intros rs h'. split; [reflexivity|].
  exact (rejection_payload_lists_a_field true rs [] (Rejected (RObject 1)) h'
           eq_refl).
Defined.

